(** * Bellman-Ford single-source shortest paths (bellmanfloydAlgorithm.py)

    A shallow embedding of [bellman_ford_algorithm] and [reconstruct_path],
    and the properties of the specification proved about that embedding.

    Modelling choices.
    - The graph is a Python [dict] whose iteration order (insertion order)
      fixes the order of the flattened edge list, so it is an association
      list; a [dict] has pairwise distinct keys, which is [dict_wf].
    - [distances] and [predecessors] are dictionaries that are only read
      and written by key: finite maps ([gmap]) with string keys.
    - Weights are exact numbers (Python [int], as in the sample graph of
      the module), and a distance is a weight or [float('inf')].
    - Exceptions are an explicit outcome: [KeyError] for a failed
      subscript, [ValueError] for the negative-cycle report.
    - The [while] loop of [reconstruct_path] is run with fuel. *)

From stdpp Require Import gmap strings list fin_maps pretty.

Local Open Scope Z_scope.
Local Open Scope string_scope.

(** ** Data model *)

(** A distance: a finite number, or [float('inf')]. *)
Inductive dist : Type :=
  | Fin (z : Z)
  | Inf.

(** [d + weight] where [d] is a distance: [inf + w = inf]. *)
Definition dist_add (d : dist) (w : Z) : dist :=
  match d with
  | Fin z => Fin (z + w)
  | Inf => Inf
  end.

(** [a < b] on distances: nothing is above [inf], not even [inf]. *)
Definition dist_ltb (a b : dist) : bool :=
  match a, b with
  | Fin x, Fin y => bool_decide (x < y)
  | Fin _, Inf => true
  | Inf, _ => false
  end.

(** [a <= b] on distances, the order the specification speaks in. *)
Definition dist_le (a b : dist) : Prop :=
  match a, b with
  | Fin x, Fin y => x <= y
  | _, Inf => True
  | Inf, Fin _ => False
  end.

Abbreviation edge := (string * string * Z)%type (only parsing).
Abbreviation graph := (list (string * list (string * Z))) (only parsing).
Abbreviation distances := (gmap string dist) (only parsing).
Abbreviation predecessors := (gmap string (option string)) (only parsing).

(** The keys of the graph dictionary, in iteration order. *)
Definition keys (g : graph) : list string := g.*1.

(** A dictionary has no repeated key. *)
Definition dict_wf (g : graph) : Prop := NoDup (keys g).

(** [graph[k]] for a key [k]: the value stored under the key. *)
Fixpoint subscript (g : graph) (k : string) : option (list (string * Z)) :=
  match g with
  | [] => None
  | (k', adj) :: g' => if decide (k' = k) then Some adj else subscript g' k
  end.

(** ** Exceptions *)

Inductive exn : Type :=
  | KeyError
  | ValueError.

Inductive outcome (A : Type) : Type :=
  | Ok (a : A)
  | Raise (e : exn).
Arguments Ok {A} a.
Arguments Raise {A} e.

#[global] Instance outcome_bind : MBind outcome := λ A B k m,
  match m with
  | Ok a => k a
  | Raise e => Raise e
  end.

(** [d[k]] as an expression: [KeyError] when [k] is not a key. *)
Definition getitem {A} (d : gmap string A) (k : string) : outcome A :=
  match d !! k with
  | Some v => Ok v
  | None => Raise KeyError
  end.

(** [for x in l: s = body(s, x)], stopping at the first exception. *)
Fixpoint for_each {S X} (body : S → X → outcome S) (l : list X) (s : S)
  : outcome S :=
  match l with
  | [] => Ok s
  | x :: l' => s' ← body s x; for_each body l' s'
  end.

(** [for _ in range(n): s = body(s)]. *)
Fixpoint repeat_n {S} (n : nat) (body : S → outcome S) (s : S) : outcome S :=
  match n with
  | O => Ok s
  | S n' => s' ← body s; repeat_n n' body s'
  end.

(** ** bellman_ford_algorithm *)

(** [{vertex: v for vertex in graph}] *)
Definition fromkeys {A} (ks : list string) (v : A) : gmap string A :=
  foldr (λ k m, <[k := v]> m) ∅ ks.

(** [[(start, end, weight) for start in graph for end, weight in graph[start]]]:
    the keys in iteration order, each with the list stored under it (see
    [edges_subscript]). *)
Definition edges (g : graph) : list edge :=
  '(start, adj) ← g; '(end_, weight) ← adj; [(start, end_, weight)].

(** The body of the relaxation loop, for one edge:
    [if distances[start] + weight < distances[end]:
         distances[end] = distances[start] + weight
         predecessors[end] = start] *)
Definition relax (st : distances * predecessors) (e : edge)
  : outcome (distances * predecessors) :=
  let '(ds, ps) := st in
  let '(start, end_, weight) := e in
  d_start ← getitem ds start;
  d_end ← getitem ds end_;
  if dist_ltb (dist_add d_start weight) d_end
  then Ok (<[end_ := dist_add d_start weight]> ds, <[end_ := Some start]> ps)
  else Ok (ds, ps).

(** The body of the final scan, for one edge:
    [if distances[start] + weight < distances[end]: raise ValueError(...)] *)
Definition check (ds : distances) (e : edge) : outcome distances :=
  let '(start, end_, weight) := e in
  d_start ← getitem ds start;
  d_end ← getitem ds end_;
  if dist_ltb (dist_add d_start weight) d_end
  then Raise ValueError
  else Ok ds.

(** [len(graph) - 1] as the argument of [range]: no iteration when it is
    not positive. *)
Definition passes (g : graph) : nat := (length g - 1)%nat.

Definition init (g : graph) (source : string) : distances * predecessors :=
  (<[source := Fin 0]> (fromkeys (keys g) Inf), fromkeys (keys g) None).

Definition bellman_ford_algorithm (g : graph) (source : string)
  : outcome (distances * predecessors) :=
  let es := edges g in
  st ← repeat_n (passes g) (for_each relax es) (init g source);
  _ ← for_each check es st.1;
  Ok st.

(** ** reconstruct_path *)

(** The loop [while current is not None: path.insert(0, current);
    current = predecessors[current]], with [fuel] bounding the number of
    iterations; [None] is "not finished within [fuel] iterations". *)
Fixpoint reconstruct_loop (fuel : nat) (ps : predecessors)
    (path : list string) (current : option string)
  : option (outcome (list string)) :=
  match current with
  | None => Some (Ok path)
  | Some c =>
      match fuel with
      | O => None
      | S fuel' =>
          match getitem ps c with
          | Ok next => reconstruct_loop fuel' ps (c :: path) next
          | Raise e => Some (Raise e)
          end
      end
  end.

Definition reconstruct_path (fuel : nat) (ps : predecessors) (target : string)
  : option (outcome (list string)) :=
  reconstruct_loop fuel ps [] (Some target).

(** ** Walks, cycles and shortest paths of the graph *)

(** [walk es s vs v w]: the edge list [es] has a walk from [s] to [v] of
    total weight [w]; [vs] lists the vertices it visits, the last one
    first (so [vs] ends in [s] and starts with [v]). *)
Inductive walk (es : list (string * string * Z)) (s : string)
  : list string → string → Z → Prop :=
  | walk_nil : walk es s [s] s 0
  | walk_snoc vs u v w c :
      walk es s vs u w → (u, v, c) ∈ es → walk es s (v :: vs) v (w + c).

(** [v] can be reached from [s]. *)
Definition reachable (es : list (string * string * Z)) (s v : string) : Prop :=
  ∃ vs w, walk es s vs v w.

(** A directed cycle through [v]: a closed walk that repeats no vertex
    but its end point. *)
Definition cycle (es : list (string * string * Z)) (v : string)
    (vs : list string) (w : Z) : Prop :=
  walk es v vs v w ∧ NoDup (tail vs).

(** A cycle of negative total weight that can be reached from [s]. *)
Definition negative_cycle (es : list (string * string * Z)) (s : string)
  : Prop :=
  ∃ v vs w, reachable es s v ∧ cycle es v vs w ∧ w < 0.

(** [d] is the shortest-path weight from [s] to [v]: the least weight of
    a walk, or [Inf] when there is no walk. *)
Definition shortest (es : list (string * string * Z)) (s v : string)
    (d : dist) : Prop :=
  match d with
  | Fin x => (∃ vs, walk es s vs v x) ∧ ∀ vs w, walk es s vs v w → x <= w
  | Inf => ¬ reachable es s v
  end.

(** The key-completeness precondition: the source and every edge end
    point are keys of the graph (edge start points always are). *)
Definition key_complete (g : graph) (source : string) : Prop :=
  source ∈ keys g ∧ ∀ u v c, (u, v, c) ∈ edges g → v ∈ keys g.

(** [pred_chain ps v l]: following [ps] from [v] up to a vertex without
    predecessor visits exactly [l], [v] first. *)
Inductive pred_chain (ps : gmap string (option string))
  : string → list string → Prop :=
  | chain_root v : ps !! v = Some None → pred_chain ps v [v]
  | chain_step v u l :
      ps !! v = Some (Some u) → pred_chain ps u l → pred_chain ps v (v :: l).

(** An edge that still relaxes under [ds]. *)
Definition relaxable (ds : gmap string dist) (e : string * string * Z) : Prop :=
  ∃ du dv, ds !! e.1.1 = Some du ∧ ds !! e.1.2 = Some dv
           ∧ dist_ltb (dist_add du e.2) dv = true.

(** No edge of [es] relaxes: both end points have a distance and
    [ds[v] <= ds[u] + c]. *)
Definition settled (ds : gmap string dist) (es : list (string * string * Z))
  : Prop :=
  ∀ u v c, (u, v, c) ∈ es →
    ∃ du dv, ds !! u = Some du ∧ ds !! v = Some dv
             ∧ dist_le dv (dist_add du c).

(** [reconstruct_path(ps, target)] returns [path]: it does so with any
    fuel from some amount on. *)
Definition returns_path (ps : gmap string (option string)) (target : string)
    (path : list string) : Prop :=
  ∃ n, ∀ fuel, (n ≤ fuel)%nat →
    reconstruct_path fuel ps target = Some (Ok path).

(** [ps] is a shortest-path tree for the distances [ds]: the source and
    the vertices at distance [inf] have no predecessor, every link is an
    edge that is tight for [ds], and the path reconstructed for a vertex
    at a finite distance runs from the source to it, along edges of the
    graph, with that distance as its weight. *)
Definition shortest_path_tree (es : list (string * string * Z)) (s : string)
    (ds : gmap string dist) (ps : gmap string (option string)) : Prop :=
  ps !! s = Some None
  ∧ (∀ v, ds !! v = Some Inf → ps !! v = Some None)
  ∧ (∀ v u, ps !! v = Some (Some u) →
       ∃ c x, (u, v, c) ∈ es ∧ ds !! u = Some (Fin x)
              ∧ ds !! v = Some (Fin (x + c)))
  ∧ (∀ v x, ds !! v = Some (Fin x) →
       ∃ path, returns_path ps v path ∧ walk es s (rev path) v x).

(** ** Auxiliary notions of the proofs *)

(** What holds of [(distances, predecessors)] all along a run on [g]
    from [s], whatever the graph (no precondition). *)
Record inv (g : list (string * list (string * Z))) (s : string)
    (st : gmap string dist * gmap string (option string)) : Prop := {
  (* a finite distance is the weight of a walk from the source *)
  inv_sound : ∀ v x, st.1 !! v = Some (Fin x) →
                ∃ vs, walk (edges g) s vs v x;
  (* the source has a distance, at most 0 *)
  inv_source : ∃ x, st.1 !! s = Some (Fin x) ∧ x <= 0;
  (* a predecessor link is an edge, and it is not longer than the
     difference of the distances of its end points *)
  inv_pred : ∀ v u, st.2 !! v = Some (Some u) →
               ∃ c x y, (u, v, c) ∈ edges g ∧ st.1 !! u = Some (Fin x)
                        ∧ st.1 !! v = Some (Fin y) ∧ x + c <= y;
  (* without predecessor, the distance is the initial one *)
  inv_none : ∀ v, st.2 !! v = Some None → v ≠ s → st.1 !! v = Some Inf;
  inv_none_source : st.2 !! s = Some None → st.1 !! s = Some (Fin 0);
  (* the source gets a predecessor only with a negative distance *)
  inv_source_pred : ∀ u, st.2 !! s = Some (Some u) →
                      ∃ x, st.1 !! s = Some (Fin x) ∧ x < 0;
  (* the keys of the two dictionaries *)
  inv_dom : ∀ v, is_Some (st.1 !! v) ↔ v ∈ keys g ∨ v = s;
  inv_dom_pred : ∀ v, v ∈ keys g → is_Some (st.2 !! v);
  inv_dom_pred' : ∀ v, is_Some (st.2 !! v) → v ∈ keys g ∨ v = s
}.

(** The distances [ds'] are keyed like [ds] and nowhere above them. *)
Definition decreases (ds ds' : gmap string dist) : Prop :=
  ∀ v d, ds !! v = Some d → ∃ d', ds' !! v = Some d' ∧ dist_le d' d.

(** The distances bound the weight of every walk from the source that
    visits at most [k + 1] vertices. *)
Definition bounded (es : list (string * string * Z)) (s : string) (k : nat)
    (ds : gmap string dist) : Prop :=
  ∀ vs v w, walk es s vs v w → (length vs ≤ S k)%nat →
    ∃ d, ds !! v = Some d ∧ dist_le d (Fin w).

(** Every key of [ps] starts a chain that ends. *)
Definition chains (ps : gmap string (option string)) : Prop :=
  ∀ v, is_Some (ps !! v) → ∃ l, pred_chain ps v l.

(** The key-completeness precondition, as a test. *)
Definition key_completeb (g : list (string * list (string * Z)))
    (source : string) : bool :=
  bool_decide (source ∈ keys g)
  && forallb (λ e : string * string * Z, bool_decide (e.1.2 ∈ keys g)) (edges g).

(** ** Sample graphs *)

(** The sample graph of the module, and what the run on it returns. *)
Definition sample_graph : graph :=
  [ ("A", [("B", 3); ("C", 5)]);
    ("B", [("C", 2); ("D", 6)]);
    ("C", [("B", 1); ("D", 4); ("E", 6)]);
    ("D", [("E", 2)]);
    ("E", [("A", 3); ("D", 7)]) ].

Definition sample_distances : gmap string dist :=
  <["A" := Fin 0]> (<["B" := Fin 3]> (<["C" := Fin 5]>
    (<["D" := Fin 9]> (<["E" := Fin 11]> ∅)))).

Definition sample_predecessors : gmap string (option string) :=
  <["A" := None]> (<["B" := Some "A"]> (<["C" := Some "A"]>
    (<["D" := Some "B"]> (<["E" := Some "C"]> ∅)))).

(** The sample graph with its vertices and its edges listed in another
    order. *)
Definition sample_graph_reordered : graph :=
  [ ("E", [("D", 7); ("A", 3)]);
    ("C", [("E", 6); ("B", 1); ("D", 4)]);
    ("A", [("C", 5); ("B", 3)]);
    ("D", [("E", 2)]);
    ("B", [("D", 6); ("C", 2)]) ].

(** A cycle of weight [-1] through the source. *)
Definition negative_loop : list (string * list (string * Z)) :=
  [ ("A", [("B", 1)]); ("B", [("A", -2)]) ].

(** A negative edge on no cycle. *)
Definition negative_edge : list (string * list (string * Z)) :=
  [ ("A", [("B", -1)]); ("B", []) ].

(** One vertex and no edge. *)
Definition single_vertex : list (string * list (string * Z)) := [ ("A", []) ].

(** Two vertices and an edge to [X], which is not a key. *)
Definition dangling_edge : list (string * list (string * Z)) :=
  [ ("A", [("X", 1)]); ("B", []) ].

(** Vertex [C] cannot be reached from [A]. *)
Definition disconnected : list (string * list (string * Z)) :=
  [ ("A", [("B", 1)]); ("B", []); ("C", []) ].

(** [u] is the predecessor of [v]. *)
Definition link (ps : gmap string (option string)) (v u : string) : Prop :=
  ps !! v = Some (Some u).

(** Predecessors that run in a circle. *)
Definition circular_predecessors : gmap string (option string) :=
  <["A" := Some "B"]> (<["B" := Some "A"]> ∅).

(** Predecessors with a link to a vertex that is not a key. *)
Definition broken_predecessors : gmap string (option string) :=
  <["A" := Some "B"]> ∅.

(** ** display_results and the script *)

(** A computation that prints: the texts printed, in order, and how it
    ended ([None]: a loop was still running when the fuel ran out). *)
Definition io (A : Type) : Type := (list string * option (outcome A))%type.

#[global] Instance io_bind : MBind io := λ A B k m,
  match m.2 with
  | Some (Ok a) => ((m.1 ++ (k a).1)%list, (k a).2)
  | Some (Raise e) => (m.1, Some (Raise e))
  | None => (m.1, None)
  end.

(** The character [\n]. *)
Definition newline : Ascii.ascii := Ascii.ascii_of_nat 10.

(** [print(text)] *)
Definition print (text : string) : io unit := ([text], Some (Ok ())).

(** A computation that prints nothing. *)
Definition silent {A} (r : option (outcome A)) : io A := ([], r).

(** [for x in l: body(x)] *)
Fixpoint io_for_each {X} (body : X → io unit) (l : list X) : io unit :=
  match l with
  | [] => silent (Some (Ok ()))
  | x :: l' => _ ← body x; io_for_each body l'
  end.

(** A dictionary that is iterated: its items in iteration order. *)
Abbreviation items := (list (string * dist)) (only parsing).

(** [d[k]] on the items of a dictionary. *)
Fixpoint items_get (d : items) (k : string) : outcome dist :=
  match d with
  | [] => Raise KeyError
  | (k', v) :: d' => if decide (k' = k) then Ok v else items_get d' k
  end.

(** [sep.join(l)] *)
Fixpoint join (sep : string) (l : list string) : string :=
  match l with
  | [] => ""
  | [x] => x
  | x :: l' => x +:+ sep +:+ join sep l'
  end.

(** [f"{distance}"]: an integer in decimal, [inf] for [float('inf')]. *)
Definition format_dist (d : dist) : string :=
  match d with
  | Fin z => pretty z
  | Inf => "inf"
  end.

(** The line of the first loop:
    [distance_str = f"{distance}" if distance < float('inf') else "∞"
     print(f"{vertex}: {distance_str}")] *)
Definition distance_line (item : string * dist) : string :=
  let '(vertex, distance) := item in
  let distance_str :=
    if dist_ltb distance Inf then format_dist distance else "∞" in
  vertex +:+ ": " +:+ distance_str.

(** The body of the second loop:
    [if distances[vertex] < float('inf'):
         path = reconstruct_path(predecessors, vertex)
         print(f"Path to {vertex}: {' -> '.join(path)}")
     else:
         print(f"Path to {vertex}: No path")] *)
Definition display_path (fuel : nat) (distances : items)
    (predecessors : gmap string (option string)) (vertex : string) : io unit :=
  d ← silent (Some (items_get distances vertex));
  if dist_ltb d Inf
  then path ← silent (reconstruct_path fuel predecessors vertex);
       print ("Path to " +:+ vertex +:+ ": " +:+ join " -> " path)
  else print ("Path to " +:+ vertex +:+ ": No path").

(** [display_results(distances, predecessors, source)]; [fuel] bounds the
    iterations of each call of [reconstruct_path]. *)
Definition display_results (fuel : nat) (distances : items)
    (predecessors : gmap string (option string)) (source : string) : io unit :=
  _ ← print ("Minimum distances from source '" +:+ source +:+ "':");
  _ ← io_for_each (λ item, print (distance_line item)) distances;
  _ ← print (String newline "Shortest paths from source:");
  io_for_each (display_path fuel distances predecessors) distances.*1.

(** The two headings of the report. *)
Definition distances_heading (source : string) : string :=
  "Minimum distances from source '" +:+ source +:+ "':".

Definition paths_heading : string :=
  String newline "Shortest paths from source:".

(** [line] is what the report says of the path to a vertex with a
    shortest path to show: [No path] at distance [inf], otherwise a walk
    of the graph from the source to the vertex, of weight its distance,
    its vertices joined by arrows. *)
Definition shortest_path_line (es : list (string * string * Z)) (s : string)
    (item : string * dist) (line : string) : Prop :=
  match item.2 with
  | Fin x =>
      ∃ path, walk es s (rev path) item.1 x
              ∧ line = "Path to " +:+ item.1 +:+ ": " +:+ join " -> " path
  | Inf => line = "Path to " +:+ item.1 +:+ ": No path"
  end.

(** The iteration order of the [distances] that [bellman_ford_algorithm]
    returns: the keys of the graph as the comprehension inserts them,
    then the source if [distances[source] = 0] added it (the later stores
    [distances[end] = ...] are to keys that are already there). *)
Definition returned_order (g : graph) (source : string) : list string :=
  (keys g ++ if decide (source ∈ keys g) then [] else [source])%list.

(** The items of [ds] in the iteration order [order]. *)
Definition dict_items (order : list string) (ds : gmap string dist) : items :=
  omap (λ k, (λ d, (k, d)) <$> ds !! k) order.

(** The text of the [ValueError] that [bellman_ford_algorithm] raises. *)
Definition negative_cycle_message : string :=
  "The graph contains a negative weight cycle.".

(** The body of the script, for a graph and a source:
    [try:
         distances, predecessors = bellman_ford_algorithm(graph, source)
         display_results(distances, predecessors, source)
     except ValueError as error:
         print(error)] *)
Definition script (fuel : nat) (g : graph) (source : string) : io unit :=
  let body :=
    st ← silent (Some (bellman_ford_algorithm g source));
    display_results fuel (dict_items (returned_order g source) st.1) st.2 source
  in
  match body.2 with
  | Some (Raise ValueError) =>
      ((body.1 ++ [negative_cycle_message])%list, Some (Ok ()))
  | _ => body
  end.

(** The script as the module runs it. *)
Definition main (fuel : nat) : io unit := script fuel sample_graph "A".

(** * Properties *)

(** ** Distances *)

Lemma dist_ltb_true a b :
  dist_ltb a b = true ↔
  ∃ x, a = Fin x ∧ (b = Inf ∨ ∃ y, b = Fin y ∧ x < y).
Proof.
  destruct a as [x|], b as [y|]; simpl; rewrite ?bool_decide_eq_true; split.
  - intros H. exists x. split; [done|]. right. by exists y.
  - intros (x' & [= <-] & [[=] | (y' & [= <-] & H)]). done.
  - intros _. exists x. by split; [|left].
  - done.
  - done.
  - intros (x' & [=] & _).
  - done.
  - intros (x' & [=] & _).
Qed.

Lemma dist_ltb_false a b : dist_ltb a b = false ↔ dist_le b a.
Proof.
  destruct a as [x|], b as [y|]; simpl; rewrite ?bool_decide_eq_false;
    split; try done; lia.
Qed.

Lemma dist_le_refl a : dist_le a a.
Proof. destruct a; simpl; lia. Qed.

Lemma dist_le_trans a b c : dist_le a b → dist_le b c → dist_le a c.
Proof. destruct a, b, c; simpl; try done; lia. Qed.

Lemma dist_add_mono a b c : dist_le a b → dist_le (dist_add a c) (dist_add b c).
Proof. destruct a, b; simpl; try done; lia. Qed.

(** ** Dictionaries and loops *)

Lemma lookup_fromkeys {A} (ks : list string) (x : A) k :
  fromkeys ks x !! k = if decide (k ∈ ks) then Some x else None.
Proof.
  induction ks as [|k' ks IH]; simpl.
  - by rewrite lookup_empty.
  - rewrite lookup_insert. destruct (decide (k' = k)) as [->|Hne].
    + rewrite decide_True; [done | by left].
    + rewrite IH. destruct (decide (k ∈ ks)) as [Hin|Hnin].
      * rewrite decide_True; [done | by right].
      * rewrite decide_False; [done |].
        intros [?|?]%elem_of_cons; congruence.
Qed.

Lemma elem_of_edges g u v c :
  (u, v, c) ∈ edges g ↔ ∃ adj, (u, adj) ∈ g ∧ (v, c) ∈ adj.
Proof.
  unfold edges. rewrite list_elem_of_bind. split.
  - intros [[u' adj] [Hin Hg]]. apply list_elem_of_bind in Hin.
    destruct Hin as [[v' c'] [Hin Hadj]].
    apply list_elem_of_singleton in Hin. naive_solver.
  - intros (adj & Hg & Hadj). exists (u, adj). split; [|done].
    apply list_elem_of_bind. exists (v, c). split; [|done].
    by apply list_elem_of_singleton.
Qed.

Lemma subscript_entry g k adj :
  dict_wf g → (k, adj) ∈ g → subscript g k = Some adj.
Proof.
  unfold dict_wf, keys. induction g as [|[k' adj'] g IH]; intros Hnd Hin.
  - by apply elem_of_nil in Hin.
  - rewrite fmap_cons in Hnd. apply NoDup_cons in Hnd as [Hk' Hnd]. simpl.
    apply elem_of_cons in Hin as [[= <- <-] | Hin].
    + by rewrite decide_True.
    + rewrite decide_False; [by apply IH|]. intros ->. apply Hk'.
      apply list_elem_of_fmap. by exists (k, adj).
Qed.

(** On a dictionary, the flattened edge list is the comprehension of the
    source, read with the subscript [graph[start]]. *)
Lemma edges_subscript g :
  dict_wf g →
  edges g = (start ← keys g;
             '(end_, weight) ← default [] (subscript g start);
             [(start, end_, weight)]).
Proof.
  intros Hwf. unfold edges, keys. rewrite list_fmap_bind.
  apply Forall_bind_ext, Forall_forall. intros [k adj] Hin. simpl.
  by rewrite (subscript_entry g k adj).
Qed.

Lemma edges_start_key g u v c : (u, v, c) ∈ edges g → u ∈ keys g.
Proof.
  intros (adj & Hg & _)%elem_of_edges. unfold keys.
  apply list_elem_of_fmap. by exists (u, adj).
Qed.

Lemma for_each_cons {S X} (body : S → X → outcome S) x l s r :
  for_each body (x :: l) s = Ok r ↔
  ∃ s1, body s x = Ok s1 ∧ for_each body l s1 = Ok r.
Proof.
  simpl. destruct (body s x) as [s1|e]; simpl; split.
  - intros H. by exists s1.
  - by intros (s1' & [= <-] & H).
  - done.
  - by intros (s1' & [=] & _).
Qed.

Lemma for_each_inv {S X} (P : S → Prop) (body : S → X → outcome S) l s r :
  (∀ s x s', x ∈ l → P s → body s x = Ok s' → P s') →
  P s → for_each body l s = Ok r → P r.
Proof.
  revert s. induction l as [|x l IH]; intros s Hbody Hs Hrun.
  - simpl in Hrun. by injection Hrun as <-.
  - apply for_each_cons in Hrun as (s1 & H1 & Hrun).
    apply (IH s1); [| |done].
    + intros s0 y s0' Hy. apply Hbody. by right.
    + apply (Hbody s x); [by left|done..].
Qed.

Lemma repeat_n_inv {S} (P : S → Prop) (body : S → outcome S) n s r :
  (∀ s s', P s → body s = Ok s' → P s') →
  P s → repeat_n n body s = Ok r → P r.
Proof.
  intros Hbody. revert s. induction n as [|n IH]; intros s Hs Hrun; simpl in Hrun.
  - by injection Hrun as <-.
  - destruct (body s) as [s1|e] eqn:H1; simpl in Hrun; [|done].
    apply (IH s1); [|done]. by apply (Hbody s).
Qed.

(** ** One relaxation *)

Lemma relax_Ok ds ps u v c st' :
  relax (ds, ps) (u, v, c) = Ok st' →
  ∃ du dv, ds !! u = Some du ∧ ds !! v = Some dv ∧
    ((∃ x, du = Fin x ∧ dist_ltb (Fin (x + c)) dv = true
           ∧ st' = (<[v := Fin (x + c)]> ds, <[v := Some u]> ps))
     ∨ (dist_le dv (dist_add du c) ∧ st' = (ds, ps))).
Proof.
  unfold relax, getitem.
  destruct (ds !! u) as [du|] eqn:Hu; simpl; [|done].
  destruct (ds !! v) as [dv|] eqn:Hv; simpl; [|done].
  destruct (dist_ltb (dist_add du c) dv) eqn:Hlt; intros [= <-];
    exists du, dv; (split; [done|]); (split; [done|]).
  - left. destruct (proj1 (dist_ltb_true _ _) Hlt) as (y & Hy & _).
    destruct du as [x|]; [|done]. exists x. done.
  - right. split; [|done]. by apply dist_ltb_false.
Qed.

Lemma relax_Raise ds ps u v c e :
  relax (ds, ps) (u, v, c) = Raise e →
  e = KeyError ∧ (ds !! u = None ∨ ds !! v = None).
Proof.
  unfold relax, getitem.
  destruct (ds !! u) as [du|] eqn:Hu; simpl; [|intros [= <-]; auto].
  destruct (ds !! v) as [dv|] eqn:Hv; simpl; [|intros [= <-]; auto].
  by destruct (dist_ltb (dist_add du c) dv).
Qed.

Lemma relax_total ds ps u v c :
  is_Some (ds !! u) → is_Some (ds !! v) →
  ∃ st', relax (ds, ps) (u, v, c) = Ok st'.
Proof.
  intros [du Hu] [dv Hv]. unfold relax, getitem. rewrite Hu, Hv. simpl.
  destruct (dist_ltb (dist_add du c) dv); eauto.
Qed.

(** ** The final scan *)

Lemma check_Ok ds u v c ds' :
  check ds (u, v, c) = Ok ds' →
  ds' = ds ∧ ∃ du dv, ds !! u = Some du ∧ ds !! v = Some dv
                      ∧ dist_le dv (dist_add du c).
Proof.
  unfold check, getitem.
  destruct (ds !! u) as [du|] eqn:Hu; simpl; [|done].
  destruct (ds !! v) as [dv|] eqn:Hv; simpl; [|done].
  destruct (dist_ltb (dist_add du c) dv) eqn:Hlt; intros [= <-].
  split; [done|]. exists du, dv. by rewrite <- dist_ltb_false.
Qed.

Lemma scan_Ok ds es ds' :
  for_each check es ds = Ok ds' → ds' = ds ∧ settled ds es.
Proof.
  revert ds'. induction es as [|[[u v] c] es IH]; intros ds' Hrun.
  - simpl in Hrun. injection Hrun as <-. split; [done|].
    intros ??? Hin. by apply elem_of_nil in Hin.
  - apply for_each_cons in Hrun as (ds1 & H1 & Hrun).
    apply check_Ok in H1 as (-> & Hc).
    apply IH in Hrun as (-> & Hs). split; [done|].
    intros u' v' c' [[= -> -> ->] | Hin]%elem_of_cons; [done|]. by apply Hs.
Qed.

Lemma scan_settled ds es : settled ds es → for_each check es ds = Ok ds.
Proof.
  induction es as [|[[u v] c] es IH]; intros Hs; [done|].
  destruct (Hs u v c) as (du & dv & Hu & Hv & Hle); [by left|].
  simpl. unfold check at 1, getitem. rewrite Hu, Hv. simpl.
  apply dist_ltb_false in Hle. rewrite Hle. simpl.
  apply IH. intros ??? Hin. apply Hs. by right.
Qed.

(** ** Walks *)

Lemma walk_end es s vs v w : walk es s vs v w → ∃ vs', vs = v :: vs'.
Proof. destruct 1; eauto. Qed.

Lemma walk_app es s vs1 u w1 vs2 v w2 :
  walk es s vs1 u w1 → walk es u vs2 v w2 →
  ∃ vs, walk es s vs v (w1 + w2).
Proof.
  intros H1 H2. induction H2 as [|vs2 a b w2 c H2 IH Hin].
  - exists vs1. by replace (w1 + 0) with w1 by lia.
  - destruct IH as [vs IH]. exists (b :: vs).
    replace (w1 + (w2 + c)) with ((w1 + w2) + c) by lia.
    by apply walk_snoc with a.
Qed.

(** ** The loop invariant of the relaxation phase *)

Section invariant.
Variables (g : list (string * list (string * Z))) (s : string).

Lemma inv_init : inv g s (init g s).
Proof.
  unfold init. split; simpl.
  - intros v x. rewrite lookup_insert. case_decide as Hv.
    + intros [= <-]. subst v. exists [s]. constructor.
    + rewrite lookup_fromkeys. by case_decide.
  - exists 0. by rewrite lookup_insert_eq.
  - intros v u. rewrite lookup_fromkeys. by case_decide.
  - intros v Hp Hne. rewrite lookup_insert_ne by congruence.
    rewrite lookup_fromkeys in Hp. rewrite lookup_fromkeys. by case_decide.
  - intros _. by rewrite lookup_insert_eq.
  - intros u. rewrite lookup_fromkeys. by case_decide.
  - intros v. rewrite lookup_insert, lookup_fromkeys.
    repeat case_decide; split; intros Hq; eauto; try by inversion Hq.
  - intros v Hv. rewrite lookup_fromkeys. by rewrite decide_True.
  - intros v. rewrite lookup_fromkeys. case_decide; [by left|].
    by intros [? ?].
Qed.

Lemma inv_relax st e st' :
  e ∈ edges g → inv g s st → relax st e = Ok st' → inv g s st'.
Proof.
  destruct st as [ds ps], e as [[u v] c]. intros Hin I Hrun.
  apply relax_Ok in Hrun
    as (du & dv & Hu & Hv & [(x & -> & Hlt & ->) | (_ & ->)]); [|done].
  apply dist_ltb_true in Hlt as (? & [= <-] & Hdv).
  destruct I as [Isound Isrc Ipred Inone Inones Isp Idom Idp Idp']; simpl in *.
  split; simpl.
  - intros v' x'. rewrite lookup_insert. case_decide as Hv'.
    + intros [= <-]. subst v'. destruct (Isound u x Hu) as [vs Hw].
      exists (v :: vs). by apply walk_snoc with u.
    + apply Isound.
  - destruct Isrc as (x0 & Hs & Hx0). rewrite lookup_insert.
    case_decide as Hv'; [|by exists x0]. subst v.
    exists (x + c). split; [done|].
    rewrite Hs in Hv. injection Hv as <-.
    destruct Hdv as [[=] | (y & [= <-] & Hy)]. lia.
  - intros v' u'. rewrite lookup_insert. case_decide as Hv'.
    + intros [= <-]. subst v'. exists c. rewrite lookup_insert_eq.
      rewrite lookup_insert. case_decide as Huv.
      * subst v. exists (x + c), (x + c). repeat split; try done.
        rewrite Hu in Hv. injection Hv as <-.
        destruct Hdv as [[=] | (y & [= <-] & Hy)]. lia.
      * exists x, (x + c). repeat split; done.
    + intros Hp. destruct (Ipred v' u' Hp) as (c' & x' & y' & He & Hu' & Hv'' & Hle).
      exists c'. rewrite (lookup_insert_ne _ v v') by done.
      rewrite lookup_insert. case_decide as Huv.
      * subst u'. rewrite Hv in Hu'. injection Hu' as ->.
        destruct Hdv as [[=] | (y & [= <-] & Hy)].
        exists (x + c), y'. repeat split; try done. lia.
      * exists x', y'. done.
  - intros v'. rewrite lookup_insert. case_decide as Hv'; [done|].
    intros Hp Hne. rewrite lookup_insert_ne by done. by apply Inone.
  - rewrite lookup_insert. case_decide as Hv'; [done|].
    intros Hp. rewrite lookup_insert_ne by done. by apply Inones.
  - intros u'. rewrite lookup_insert. case_decide as Hv'.
    + intros _. subst v. rewrite lookup_insert_eq. exists (x + c).
      split; [done|]. destruct Isrc as (x0 & Hs & Hx0).
      rewrite Hs in Hv. injection Hv as <-.
      destruct Hdv as [[=] | (y & [= <-] & Hy)]. lia.
    + intros Hp. rewrite lookup_insert_ne by done. by apply (Isp u').
  - intros v'. rewrite <- Idom. rewrite lookup_insert.
    case_decide as Hv'; [|done]. subst v'. rewrite Hv.
    split; intros _; eauto.
  - intros v' Hk. rewrite lookup_insert. case_decide; eauto.
  - intros v'. rewrite lookup_insert. case_decide as Hv'; [|by apply Idp'].
    intros _. subst v'. apply Idom. eauto.
Qed.

Lemma inv_pass st st' :
  inv g s st → for_each relax (edges g) st = Ok st' → inv g s st'.
Proof.
  apply for_each_inv. intros s0 e s0' He. by apply inv_relax.
Qed.

Lemma inv_passes n st st' :
  inv g s st → repeat_n n (for_each relax (edges g)) st = Ok st' → inv g s st'.
Proof. apply repeat_n_inv. apply inv_pass. Qed.

End invariant.

(** ** The structure of a run *)

Lemma bellman_ford_Ok g s ds ps :
  bellman_ford_algorithm g s = Ok (ds, ps) ↔
  repeat_n (passes g) (for_each relax (edges g)) (init g s) = Ok (ds, ps)
  ∧ settled ds (edges g).
Proof.
  unfold bellman_ford_algorithm.
  destruct (repeat_n _ _ _) as [[ds1 ps1]|e]; simpl; split.
  - destruct (for_each check _ _) as [ds2|e] eqn:Hscan; simpl; [|done].
    intros [= -> ->]. by apply scan_Ok in Hscan as [_ ?].
  - intros [[= -> ->] Hs]. by rewrite (scan_settled _ _ Hs).
  - done.
  - by intros [[=] _].
Qed.

Lemma bellman_ford_inv g s ds ps :
  bellman_ford_algorithm g s = Ok (ds, ps) → inv g s (ds, ps).
Proof.
  intros [Hrun _]%bellman_ford_Ok.
  apply (inv_passes g s _ _ _ (inv_init g s) Hrun).
Qed.

(** Once no edge relaxes, distances cannot drop along a walk by more
    than its weight. *)
Lemma settled_walk ds es u vs v w x :
  settled ds es → ds !! u = Some (Fin x) → walk es u vs v w →
  ∃ y, ds !! v = Some (Fin y) ∧ y <= x + w.
Proof.
  intros Hs Hu Hw. induction Hw as [|vs a b w c Hw IH Hin].
  - exists x. split; [done|lia].
  - destruct IH as (y & Ha & Hy).
    destruct (Hs a b c Hin) as (da & db & Ha' & Hb & Hle).
    rewrite Ha in Ha'. injection Ha' as <-. simpl in Hle.
    destruct db as [z|]; [|done]. exists z. split; [done|]. simpl in Hle. lia.
Qed.

Lemma settled_source g s ds ps :
  inv g s (ds, ps) → settled ds (edges g) → ds !! s = Some (Fin 0).
Proof.
  intros I Hs. destruct (inv_source _ _ _ I) as (x & Hx & Hle). simpl in Hx.
  destruct (inv_sound _ _ _ I s x Hx) as [vs Hw].
  destruct (settled_walk _ _ _ _ _ _ _ Hs Hx Hw) as (y & Hy & Hle').
  rewrite Hx in Hy. injection Hy as <-.
  by replace x with 0 in Hx by lia.
Qed.

Lemma settled_source_pred g s ds ps :
  inv g s (ds, ps) → settled ds (edges g) → s ∈ keys g →
  ps !! s = Some None.
Proof.
  intros I Hs Hk. pose proof (settled_source _ _ _ _ I Hs) as H0.
  destruct (inv_dom_pred _ _ _ I s Hk) as [[u|] Hp]; [|done].
  destruct (inv_source_pred _ _ _ I u Hp) as (x & Hx & Hlt). simpl in *.
  rewrite H0 in Hx. injection Hx as <-. lia.
Qed.

(** A vertex at distance [inf] has no predecessor. *)
Lemma inf_no_pred g s ds ps t :
  inv g s (ds, ps) → ds !! t = Some Inf → ps !! t = Some None.
Proof.
  intros I Ht.
  assert (t ∈ keys g) as Hk.
  { destruct (proj1 (inv_dom _ _ _ I t)) as [?| ->]; [by eexists|done|].
    destruct (inv_source _ _ _ I) as (x & Hx & _). simpl in *. congruence. }
  destruct (inv_dom_pred _ _ _ I t Hk) as [[u|] Hp]; [|done].
  destruct (inv_pred _ _ _ I t u Hp) as (c & x & y & _ & _ & Hy & _).
  simpl in *. congruence.
Qed.

(** ** Simple paths and cycles *)

Lemma walk_start_in es u vs v w : walk es u vs v w → u ∈ vs.
Proof. induction 1; [by left|by right]. Qed.

Lemma reachable_trans es s u v :
  reachable es s u → reachable es u v → reachable es s v.
Proof.
  intros (vs1 & w1 & H1) (vs2 & w2 & H2).
  destruct (walk_app _ _ _ _ _ _ _ _ H1 H2) as [vs H]. by exists vs, (w1 + w2).
Qed.

(** A walk that repeats no vertex splits at each of its vertices. *)
Lemma walk_split es u vs x w v :
  walk es u vs x w → NoDup vs → v ∈ vs →
  ∃ vs1 vs2 w1 w2,
    walk es u vs1 v w1 ∧ walk es v vs2 x w2 ∧ w = w1 + w2
    ∧ NoDup vs1 ∧ NoDup vs2 ∧ vs2 ⊆ vs.
Proof.
  induction 1 as [|vs a b w c Hw IH Hin]; intros Hnd Hv.
  - apply list_elem_of_singleton in Hv as ->.
    exists [u], [u], 0, 0. split; [constructor|]. split; [constructor|].
    split; [done|]. split; [apply NoDup_singleton|].
    split; [apply NoDup_singleton|done].
  - apply NoDup_cons in Hnd as [Hb Hnd].
    destruct (decide (v = b)) as [->|Hne].
    + exists (b :: vs), [b], (w + c), 0. split; [by apply walk_snoc with a|].
      split; [constructor|]. split; [lia|].
      split; [by apply NoDup_cons|]. split; [apply NoDup_singleton|].
      intros y ->%list_elem_of_singleton. by left.
    + apply elem_of_cons in Hv as [?|Hv]; [done|].
      destruct (IH Hnd Hv) as (vs1 & vs2 & w1 & w2 & H1 & H2 & -> & N1 & N2 & Hsub).
      exists vs1, (b :: vs2), w1, (w2 + c). split; [done|].
      split; [by apply walk_snoc with a|]. split; [lia|]. split; [done|].
      split.
      * apply NoDup_cons. split; [|done]. intros Hb'. by apply Hb, Hsub.
      * intros y [->|Hy]%elem_of_cons; [by left|]. right. by apply Hsub.
Qed.

(** Every walk either meets a negative cycle or can be cut down to a
    simple path that is not heavier. *)
Lemma walk_simplify es u vs v w :
  walk es u vs v w →
  (∃ a cs c, reachable es u a ∧ cycle es a cs c ∧ c < 0)
  ∨ (∃ vs' w', walk es u vs' v w' ∧ NoDup vs' ∧ w' <= w).
Proof.
  induction 1 as [|vs a b w c Hw IH Hin].
  - right. exists [u], 0. split; [constructor|]. split; [|lia].
    apply NoDup_singleton.
  - destruct IH as [?|(vs' & w' & Hw' & Hnd & Hle)]; [by left|].
    destruct (decide (b ∈ vs')) as [Hb|Hb].
    + destruct (walk_split _ _ _ _ _ b Hw' Hnd Hb)
        as (vs1 & vs2 & w1 & w2 & H1 & H2 & -> & N1 & N2 & _).
      destruct (decide (w2 + c < 0)) as [Hneg|Hpos].
      * left. exists b, (b :: vs2), (w2 + c). split; [by exists vs1, w1|].
        split; [|done]. split; [by apply walk_snoc with a|done].
      * right. exists vs1, w1. split; [done|]. split; [done|lia].
    + right. exists (b :: vs'), (w' + c). split; [by apply walk_snoc with a|].
      split; [by apply NoDup_cons|lia].
Qed.

Lemma simple_closed_walk es u vs w : walk es u vs u w → NoDup vs → w = 0.
Proof.
  inversion 1 as [|vs0 a b w0 c Hw Hin]; subst; [done|].
  intros [Hu _]%NoDup_cons. destruct Hu. by apply walk_start_in in Hw.
Qed.

(** A closed walk of negative weight contains a negative cycle. *)
Lemma closed_walk_negative_cycle es s v vs w :
  reachable es s v → walk es v vs v w → w < 0 → negative_cycle es s.
Proof.
  intros Hr Hw Hneg.
  destruct (walk_simplify _ _ _ _ _ Hw)
    as [(a & cs & c & Ha & Hc & Hlt) | (vs' & w' & Hw' & Hnd & Hle)].
  - exists a, cs, c. split; [|done]. by apply reachable_trans with v.
  - apply simple_closed_walk in Hw'; [lia|done].
Qed.

Lemma negative_cycle_closed_walk es s :
  negative_cycle es s ↔
  ∃ v vs w, reachable es s v ∧ walk es v vs v w ∧ w < 0.
Proof.
  split.
  - intros (v & vs & w & Hr & [Hw _] & Hneg). by exists v, vs, w.
  - intros (v & vs & w & Hr & Hw & Hneg).
    by apply closed_walk_negative_cycle with v vs w.
Qed.

(** Without negative cycle, a shortest walk can be taken simple. *)
Lemma walk_simple es s vs v w :
  ¬ negative_cycle es s → walk es s vs v w →
  ∃ vs' w', walk es s vs' v w' ∧ NoDup vs' ∧ w' <= w.
Proof.
  intros Hnc Hw. destruct (walk_simplify _ _ _ _ _ Hw) as [(a & cs & c & H)|H];
    [|done].
  destruct Hnc. by exists a, cs, c.
Qed.

(** ** Distances only decrease *)

Lemma decreases_refl ds : decreases ds ds.
Proof. intros v d H. exists d. split; [done|apply dist_le_refl]. Qed.

Lemma decreases_trans ds1 ds2 ds3 :
  decreases ds1 ds2 → decreases ds2 ds3 → decreases ds1 ds3.
Proof.
  intros H12 H23 v d H. destruct (H12 v d H) as (d2 & H2 & Hle2).
  destruct (H23 v d2 H2) as (d3 & H3 & Hle3). exists d3. split; [done|].
  by apply dist_le_trans with d2.
Qed.

Lemma relax_decreases st e st' : relax st e = Ok st' → decreases st.1 st'.1.
Proof.
  destruct st as [ds ps], e as [[u v] c]. intros Hrun.
  apply relax_Ok in Hrun
    as (du & dv & Hu & Hv & [(x & -> & Hlt & ->) | (_ & ->)]);
    [|apply decreases_refl].
  simpl. intros v' d Hd. rewrite lookup_insert. case_decide as Hv'.
  - subst v'. exists (Fin (x + c)). split; [done|].
    rewrite Hv in Hd. injection Hd as <-.
    apply dist_ltb_true in Hlt as (? & [= <-] & [->|(y & -> & Hy)]);
      simpl; [done|lia].
  - exists d. split; [done|apply dist_le_refl].
Qed.

Lemma pass_decreases es st st' :
  for_each relax es st = Ok st' → decreases st.1 st'.1.
Proof.
  apply (for_each_inv (λ st', decreases st.1 st'.1)); [|apply decreases_refl].
  intros s0 e s0' _ H0 Hrun.
  apply decreases_trans with s0.1; [done|by apply relax_decreases with e].
Qed.

(** After a pass, every edge has been relaxed against the distance its
    start point had before the pass. *)
Lemma pass_edge es st st' u v c du :
  for_each relax es st = Ok st' → (u, v, c) ∈ es → st.1 !! u = Some du →
  ∃ dv, st'.1 !! v = Some dv ∧ dist_le dv (dist_add du c).
Proof.
  revert st du. induction es as [|e es IH]; intros st du Hrun Hin Hu.
  - by apply elem_of_nil in Hin.
  - apply for_each_cons in Hrun as (st1 & H1 & Hrun).
    apply elem_of_cons in Hin as [<-|Hin].
    + assert (∃ dv, st1.1 !! v = Some dv ∧ dist_le dv (dist_add du c))
        as (dv & Hv & Hle).
      { destruct st as [ds ps]. simpl in Hu.
        apply relax_Ok in H1
          as (du' & dv & Hu' & Hv & [(x & -> & Hlt & ->) | (Hle & ->)]);
          rewrite Hu in Hu'; injection Hu' as ->; simpl.
        - exists (Fin (x + c)). rewrite lookup_insert_eq.
          split; [done|]. simpl. lia.
        - by exists dv. }
      destruct (pass_decreases _ _ _ Hrun v dv Hv) as (dv' & Hv' & Hle').
      exists dv'. split; [done|]. by apply dist_le_trans with dv.
    + destruct (relax_decreases _ _ _ H1 u du Hu) as (du1 & Hu1 & Hle1).
      destruct (IH st1 du1 Hrun Hin Hu1) as (dv & Hv & Hle).
      exists dv. split; [done|].
      apply dist_le_trans with (dist_add du1 c); [done|].
      by apply dist_add_mono.
Qed.

(** ** The distances after [k] passes bound the walks of at most [k] edges *)

Lemma bounded_init g s : bounded (edges g) s 0 (init g s).1.
Proof.
  intros vs v w Hw Hlen. destruct Hw as [|vs u v w c Hw Hin].
  - exists (Fin 0). simpl. by rewrite lookup_insert_eq.
  - apply walk_end in Hw as [vs' ->]. simpl in Hlen. lia.
Qed.

Lemma bounded_pass es s k st st' :
  bounded es s k st.1 → for_each relax es st = Ok st' →
  bounded es s (S k) st'.1.
Proof.
  intros Hb Hrun vs v w Hw Hlen. destruct Hw as [|vs u v w c Hw Hin].
  - destruct (Hb [s] s 0) as (d & Hd & Hle); [constructor|simpl; lia|].
    destruct (pass_decreases _ _ _ Hrun s d Hd) as (d' & Hd' & Hle').
    exists d'. split; [done|]. by apply dist_le_trans with d.
  - simpl in Hlen. destruct (Hb vs u w Hw) as (du & Hu & Hle); [lia|].
    destruct (pass_edge _ _ _ _ _ _ _ Hrun Hin Hu) as (dv & Hv & Hle').
    exists dv. split; [done|].
    apply dist_le_trans with (dist_add du c); [done|].
    by apply (dist_add_mono du (Fin w) c).
Qed.

Lemma bounded_passes es s n k st st' :
  bounded es s k st.1 → repeat_n n (for_each relax es) st = Ok st' →
  bounded es s (k + n) st'.1.
Proof.
  revert k st. induction n as [|n IH]; intros k st Hb Hrun; simpl in Hrun.
  - injection Hrun as <-. by rewrite Nat.add_0_r.
  - destruct (for_each relax es st) as [st1|e] eqn:H1; simpl in Hrun; [|done].
    replace (k + S n)%nat with (S k + n)%nat by lia.
    apply (IH (S k) st1); [|done]. by apply bounded_pass with st.
Qed.

(** ** Under key completeness no subscript fails *)

Lemma for_each_total {S X} (P : S → Prop) (body : S → X → outcome S) l s :
  (∀ s x, x ∈ l → P s → ∃ s', body s x = Ok s' ∧ P s') →
  P s → ∃ s', for_each body l s = Ok s' ∧ P s'.
Proof.
  revert s. induction l as [|x l IH]; intros s Hbody Hs.
  - by exists s.
  - destruct (Hbody s x) as (s1 & H1 & Hs1); [by left|done|].
    destruct (IH s1) as (s' & Hrun & Hs'); [|done|].
    + intros s0 y Hy. apply Hbody. by right.
    + exists s'. split; [|done]. apply for_each_cons. by exists s1.
Qed.

Lemma repeat_n_total {S} (P : S → Prop) (body : S → outcome S) n s :
  (∀ s, P s → ∃ s', body s = Ok s' ∧ P s') →
  P s → ∃ s', repeat_n n body s = Ok s' ∧ P s'.
Proof.
  intros Hbody. revert s. induction n as [|n IH]; intros s Hs.
  - by exists s.
  - destruct (Hbody s Hs) as (s1 & H1 & Hs1).
    destruct (IH s1 Hs1) as (s' & Hrun & Hs').
    exists s'. split; [|done]. simpl. by rewrite H1.
Qed.

Lemma passes_total g s n :
  key_complete g s →
  ∃ st, repeat_n n (for_each relax (edges g)) (init g s) = Ok st ∧ inv g s st.
Proof.
  intros [Hs Hk]. apply repeat_n_total; [|apply inv_init].
  intros st I. apply for_each_total; [|done].
  intros [ds ps] [[u v] c] Hin I'.
  destruct (relax_total ds ps u v c) as [st' Hrun].
  - apply (inv_dom _ _ _ I'). left. by apply edges_start_key in Hin.
  - apply (inv_dom _ _ _ I'). left. by apply Hk in Hin.
  - exists st'. split; [done|]. by apply inv_relax with (ds, ps) (u, v, c).
Qed.

Lemma walk_keys g s vs v w :
  key_complete g s → walk (edges g) s vs v w → ∀ a, a ∈ vs → a ∈ keys g.
Proof.
  intros [Hs Hk]. induction 1 as [|vs x y w c Hw IH Hin]; intros a Ha.
  - by apply list_elem_of_singleton in Ha as ->.
  - apply elem_of_cons in Ha as [->|Ha]; [by apply Hk in Hin|by apply IH].
Qed.

(** ** The final scan and negative cycles *)

Lemma scan_Raise ds es :
  for_each check es ds = Raise ValueError → ∃ e, e ∈ es ∧ relaxable ds e.
Proof.
  induction es as [|[[u v] c] es IH]; [done|]. simpl.
  unfold check at 1, getitem.
  destruct (ds !! u) as [du|] eqn:Hu; simpl; [|done].
  destruct (ds !! v) as [dv|] eqn:Hv; simpl; [|done].
  destruct (dist_ltb (dist_add du c) dv) eqn:Hlt; simpl.
  - intros _. exists (u, v, c). split; [by left|]. by exists du, dv.
  - intros (e & He & Hr)%IH. exists e. split; [by right|done].
Qed.

Lemma scan_no_KeyError ds es :
  (∀ u v c, (u, v, c) ∈ es → is_Some (ds !! u) ∧ is_Some (ds !! v)) →
  for_each check es ds ≠ Raise KeyError.
Proof.
  induction es as [|[[u v] c] es IH]; intros Hdom; [done|].
  destruct (Hdom u v c) as [[du Hu] [dv Hv]]; [by left|].
  simpl. unfold check at 1, getitem. rewrite Hu, Hv. simpl.
  destruct (dist_ltb (dist_add du c) dv); simpl; [done|].
  apply IH. intros u' v' c' H. apply (Hdom u' v' c'). by right.
Qed.

Lemma settled_no_negative_cycle g s ds ps :
  inv g s (ds, ps) → settled ds (edges g) → ¬ negative_cycle (edges g) s.
Proof.
  intros I Hs (v & vs & w & (vs0 & w0 & Hr) & [Hw _] & Hneg).
  destruct (inv_source _ _ _ I) as (x0 & Hx0 & _). simpl in Hx0.
  destruct (settled_walk _ _ _ _ _ _ _ Hs Hx0 Hr) as (y & Hy & _).
  destruct (settled_walk _ _ _ _ _ _ _ Hs Hy Hw) as (y' & Hy' & Hle).
  rewrite Hy in Hy'. injection Hy' as <-. lia.
Qed.

Lemma simple_walk_length g s vs v w :
  key_complete g s → walk (edges g) s vs v w → NoDup vs →
  (length vs ≤ S (passes g))%nat.
Proof.
  intros Hkc Hw Hnd.
  assert (length vs ≤ length (keys g))%nat as Hlen.
  { apply submseteq_length, NoDup_submseteq; [done|].
    by apply walk_keys with s v w. }
  unfold keys in Hlen. rewrite length_fmap in Hlen. unfold passes. lia.
Qed.

(** After the relaxation passes, an edge that still relaxes exhibits a
    negative cycle. *)
Lemma relaxable_negative_cycle g s st e :
  key_complete g s →
  repeat_n (passes g) (for_each relax (edges g)) (init g s) = Ok st →
  e ∈ edges g → relaxable st.1 e → negative_cycle (edges g) s.
Proof.
  intros Hkc Hrun Hin (du & dv & Hu & Hv & Hlt).
  destruct e as [[u v] c]. simpl in *.
  pose proof (inv_passes g s _ _ _ (inv_init g s) Hrun) as I.
  pose proof (bounded_passes _ _ _ _ _ _ (bounded_init g s) Hrun) as Hb.
  apply dist_ltb_true in Hlt as (x & Hx & Hdv).
  destruct du as [x'|]; [|done]. injection Hx as <-.
  destruct (inv_sound _ _ _ I u x' Hu) as [vs Hw].
  assert (walk (edges g) s (v :: vs) v (x' + c)) as Hw'
    by by apply walk_snoc with u.
  destruct (walk_simplify _ _ _ _ _ Hw')
    as [(a & cs & c' & H) | (vs' & w' & Hs & Hnd & Hle)].
  - by exists a, cs, c'.
  - destruct (Hb vs' v w' Hs) as (d & Hd & Hle').
    { by apply simple_walk_length with s v w'. }
    rewrite Hv in Hd. injection Hd as <-.
    destruct Hdv as [->|(y & -> & Hy)]; simpl in Hle'; [done|lia].
Qed.

(** Without negative cycle, the distances after the relaxation passes are
    the shortest-path weights. *)
Lemma passes_shortest g s st v :
  key_complete g s → ¬ negative_cycle (edges g) s →
  repeat_n (passes g) (for_each relax (edges g)) (init g s) = Ok st →
  v ∈ keys g → ∃ d, st.1 !! v = Some d ∧ shortest (edges g) s v d.
Proof.
  intros Hkc Hnc Hrun Hv.
  pose proof (inv_passes g s _ _ _ (inv_init g s) Hrun) as I.
  pose proof (bounded_passes _ _ _ _ _ _ (bounded_init g s) Hrun) as Hb.
  destruct (proj2 (inv_dom _ _ _ I v)) as [d Hd]; [by left|].
  assert (∀ vs w, walk (edges g) s vs v w → dist_le d (Fin w)) as Hle.
  { intros vs w Hw.
    destruct (walk_simple _ _ _ _ _ Hnc Hw) as (vs' & w' & Hw' & Hnd & Hle).
    destruct (Hb vs' v w' Hw') as (d' & Hd' & Hle').
    { by apply simple_walk_length with s v w'. }
    rewrite Hd in Hd'. injection Hd' as <-.
    apply dist_le_trans with (Fin w'); [done|]. done. }
  exists d. split; [done|]. destruct d as [x|]; simpl.
  - split; [by apply (inv_sound _ _ _ I)|]. intros vs w Hw. apply (Hle vs w Hw).
  - intros (vs & w & Hw). apply (Hle vs w Hw).
Qed.

Lemma shortest_settled g s ds :
  (∀ v, v ∈ keys g → ∃ d, ds !! v = Some d ∧ shortest (edges g) s v d) →
  (∀ u v c, (u, v, c) ∈ edges g → v ∈ keys g) →
  settled ds (edges g).
Proof.
  intros Hsh Hk u v c Hin.
  destruct (Hsh u) as (du & Hu & Su); [by apply edges_start_key in Hin|].
  destruct (Hsh v) as (dv & Hv & Sv); [by apply Hk in Hin|].
  exists du, dv. split; [done|]. split; [done|].
  destruct du as [x|]; [|by destruct dv]. destruct Su as [[vs Hw] _].
  assert (walk (edges g) s (v :: vs) v (x + c)) as Hw'
    by by apply walk_snoc with u.
  destruct dv as [y|]; simpl.
  - destruct Sv as [_ Hmin]. by apply Hmin with (v :: vs).
  - apply Sv. by exists (v :: vs), (x + c).
Qed.

(** ** The predecessor links form a tree *)

(** Redirecting [b] to [u] keeps a chain, unless the chain went through
    [b]: then the graph has a walk from [b] with the matching bound. *)
Lemma chain_insert g s ds ps a l y b u :
  inv g s (ds, ps) → pred_chain ps a l → ds !! a = Some (Fin y) →
  pred_chain (<[b := Some u]> ps) a l
  ∨ ∃ vs w yb, walk (edges g) b vs a w ∧ ds !! b = Some (Fin yb) ∧ yb + w <= y.
Proof.
  intros I Hc. revert y. induction Hc as [a Ha|a a' l Ha Hc IH]; intros y Hy.
  - destruct (decide (a = b)) as [->|Hne].
    + right. exists [b], 0, y. split; [constructor|]. split; [done|lia].
    + left. apply chain_root. by rewrite lookup_insert_ne.
  - destruct (decide (a = b)) as [->|Hne].
    + right. exists [b], 0, y. split; [constructor|]. split; [done|lia].
    + destruct (inv_pred _ _ _ I a a' Ha)
        as (c & x' & y' & Hin & Ha' & Hy' & Hle). simpl in *.
      rewrite Hy in Hy'. injection Hy' as <-.
      destruct (IH x' Ha') as [Hc'|(vs & w & yb & Hw & Hb & Hle')].
      * left. apply chain_step with a'; [by rewrite lookup_insert_ne|done].
      * right. exists (a :: vs), (w + c), yb.
        split; [by apply walk_snoc with a'|]. split; [done|lia].
Qed.

Lemma chain_other ps b u lb v l :
  pred_chain (<[b := Some u]> ps) b lb → pred_chain ps v l →
  ∃ l', pred_chain (<[b := Some u]> ps) v l'.
Proof.
  intros Hb. induction 1 as [v Hv|v v' l Hv Hc [l' IH]].
  - destruct (decide (v = b)) as [->|Hne]; [by exists lb|].
    exists [v]. apply chain_root. by rewrite lookup_insert_ne.
  - destruct (decide (v = b)) as [->|Hne]; [by exists lb|].
    exists (v :: l'). apply chain_step with v'; [|done].
    by rewrite lookup_insert_ne.
Qed.

Lemma chains_init g : chains (fromkeys (keys g) None).
Proof.
  intros v [o Hv]. exists [v]. apply chain_root.
  rewrite lookup_fromkeys in Hv |- *. by case_decide.
Qed.

Lemma chains_relax g s st e st' :
  ¬ negative_cycle (edges g) s → e ∈ edges g →
  inv g s st → chains st.2 → relax st e = Ok st' → chains st'.2.
Proof.
  destruct st as [ds ps], e as [[u v] c]. intros Hnc Hin I Hch Hrun.
  apply relax_Ok in Hrun
    as (du & dv & Hu & Hv & [(x & -> & Hlt & ->) | (_ & ->)]); [|done].
  simpl in *.
  destruct (Hch u) as [lu Hlu].
  { apply (inv_dom_pred _ _ _ I). by apply edges_start_key in Hin. }
  assert (pred_chain (<[v := Some u]> ps) u lu) as Hlu'.
  { destruct (chain_insert _ _ _ _ _ _ _ v u I Hlu Hu)
      as [?|(vs & w & yb & Hw & Hb & Hle)]; [done|].
    destruct Hnc. apply negative_cycle_closed_walk.
    exists v, (v :: vs), (w + c). split.
    - destruct (inv_sound _ _ _ I v yb Hb) as [vs0 H0]. by exists vs0, yb.
    - split; [by apply walk_snoc with u|].
      rewrite Hb in Hv. injection Hv as <-.
      apply bool_decide_eq_true in Hlt. lia. }
  assert (pred_chain (<[v := Some u]> ps) v (v :: lu)) as Hlv.
  { apply chain_step with u; [by rewrite lookup_insert_eq|done]. }
  intros v' Hv'. destruct (decide (v' = v)) as [->|Hne]; [by eexists|].
  rewrite lookup_insert_ne in Hv' by done.
  destruct (Hch v' Hv') as [l' Hl']. by apply chain_other with (v :: lu) l'.
Qed.

Lemma chains_passes g s n st :
  ¬ negative_cycle (edges g) s →
  repeat_n n (for_each relax (edges g)) (init g s) = Ok st → chains st.2.
Proof.
  intros Hnc Hrun.
  cut (inv g s st ∧ chains st.2); [by intros [_ ?]|].
  revert Hrun. apply (repeat_n_inv (λ st, inv g s st ∧ chains st.2));
    [|split; [apply inv_init|apply chains_init]].
  intros st1 st2. apply (for_each_inv (λ st, inv g s st ∧ chains st.2)).
  intros st3 e st4 Hin [I Hch] Hrun.
  split; [by apply inv_relax with st3 e|by apply chains_relax with g s st3 e].
Qed.

(** A chain from a reached vertex is a walk of the graph from the source,
    no heavier than the difference of the distances of its ends. *)
Lemma chain_walk g s ds ps v l y :
  inv g s (ds, ps) → pred_chain ps v l → ds !! v = Some (Fin y) →
  ∃ w x0, walk (edges g) s l v w ∧ ds !! s = Some (Fin x0) ∧ x0 + w <= y.
Proof.
  intros I Hc. revert y. induction Hc as [v Hv|v u l Hv Hc IH]; intros y Hy.
  - destruct (decide (v = s)) as [->|Hne].
    + exists 0, y. split; [constructor|]. split; [done|lia].
    + pose proof (inv_none _ _ _ I v Hv Hne) as Hinf. simpl in *. congruence.
  - destruct (inv_pred _ _ _ I v u Hv) as (c & x & y' & Hin & Hu & Hy' & Hle).
    simpl in *. rewrite Hy in Hy'. injection Hy' as <-.
    destruct (IH x Hu) as (w & x0 & Hw & Hs & Hle').
    exists (w + c), x0. split; [by apply walk_snoc with u|]. split; [done|lia].
Qed.

(** ** reconstruct_path follows the chain *)

Lemma reconstruct_loop_chain ps v l fuel path :
  pred_chain ps v l → (length l ≤ fuel)%nat →
  reconstruct_loop fuel ps path (Some v) = Some (Ok (rev l ++ path)%list).
Proof.
  intros Hc. revert fuel path.
  induction Hc as [v Hv|v u l Hv Hc IH]; intros fuel path Hlen;
    (destruct fuel as [|fuel]; simpl in Hlen; [lia|]);
    simpl; unfold getitem; rewrite Hv.
  - by destruct fuel.
  - rewrite IH by lia. by rewrite <- app_assoc.
Qed.

Lemma reconstruct_path_chain ps v l fuel :
  pred_chain ps v l → (length l ≤ fuel)%nat →
  reconstruct_path fuel ps v = Some (Ok (rev l)).
Proof.
  intros Hc Hlen. unfold reconstruct_path.
  rewrite (reconstruct_loop_chain ps v l) by done. by rewrite app_nil_r.
Qed.

(** * The claims *)

Lemma run_total g s :
  key_complete g s →
  ∃ st, repeat_n (passes g) (for_each relax (edges g)) (init g s) = Ok st
        ∧ inv g s st
        ∧ (bellman_ford_algorithm g s = Ok st
           ∨ bellman_ford_algorithm g s = Raise ValueError).
Proof.
  intros Hkc. destruct (passes_total g s (passes g) Hkc) as (st & Hrun & I).
  exists st. split; [done|]. split; [done|].
  unfold bellman_ford_algorithm. rewrite Hrun. simpl.
  destruct (for_each check (edges g) st.1) as [ds|[]] eqn:Hscan; simpl; auto.
  exfalso. revert Hscan. apply scan_no_KeyError. intros u v c Hin.
  destruct Hkc as [_ Hk].
  split; apply (inv_dom _ _ _ I); left;
    [by apply edges_start_key in Hin|by apply Hk in Hin].
Qed.

Lemma run_ValueError g s st :
  repeat_n (passes g) (for_each relax (edges g)) (init g s) = Ok st →
  bellman_ford_algorithm g s = Raise ValueError →
  ∃ e, e ∈ edges g ∧ relaxable st.1 e.
Proof.
  intros Hrun. unfold bellman_ford_algorithm. rewrite Hrun. simpl.
  destruct (for_each check (edges g) st.1) as [ds|ex] eqn:Hscan; simpl; [done|].
  intros [= ->]. by apply scan_Raise.
Qed.


Lemma key_completeb_true g s : key_completeb g s = true → key_complete g s.
Proof.
  unfold key_completeb. intros [Hs Hk]%andb_true_iff.
  apply bool_decide_eq_true in Hs. split; [done|].
  intros u v c Hin. rewrite forallb_forall in Hk.
  apply list_elem_of_In, Hk in Hin. by apply bool_decide_eq_true in Hin.
Qed.

(** A run that returns is a proof that no negative cycle can be reached. *)
Lemma run_no_negative_cycle g s st :
  bellman_ford_algorithm g s = Ok st → ¬ negative_cycle (edges g) s.
Proof.
  destruct st as [ds ps]. intros Hrun.
  apply settled_no_negative_cycle with ds ps.
  - by apply bellman_ford_inv.
  - by apply bellman_ford_Ok in Hrun as [_ ?].
Qed.






(** C4, as the code computes it: on the sample graph with source [A] the
    call returns the distances A=0, B=3, C=5, D=9, E=11 (and the
    predecessors A: none, B: A, C: A, D: B, E: C). *)
Theorem sample_run :
  bellman_ford_algorithm sample_graph "A"
  = Ok (sample_distances, sample_predecessors).
Proof. by vm_compute. Qed.

(** C4 as stated fails: the run does not return the distances
    A=0, B=3, C=4, D=6, E=8. *)
Lemma sample_run_not_as_stated :
  ¬ ∃ ds ps,
      bellman_ford_algorithm sample_graph "A" = Ok (ds, ps)
      ∧ ds !! "A" = Some (Fin 0) ∧ ds !! "B" = Some (Fin 3)
      ∧ ds !! "C" = Some (Fin 4) ∧ ds !! "D" = Some (Fin 6)
      ∧ ds !! "E" = Some (Fin 8).
Proof.
  intros (ds & ps & Hrun & _ & _ & HC & _).
  assert (bellman_ford_algorithm sample_graph "A"
          = Ok (sample_distances, sample_predecessors)) as Hrun'
    by by vm_compute.
  rewrite Hrun' in Hrun. injection Hrun as <- <-.
  by vm_compute in HC.
Qed.

(** ** A source that is not a key *)

Lemma init_lookup_key g s u :
  u ∈ keys g → u ≠ s → (init g s).1 !! u = Some Inf.
Proof.
  intros Hu Hne. simpl. rewrite lookup_insert_ne by done.
  rewrite lookup_fromkeys. by rewrite decide_True.
Qed.

Lemma init_lookup_unknown g s v :
  v ∉ keys g → v ≠ s → (init g s).1 !! v = None.
Proof.
  intros Hv Hne. simpl. rewrite lookup_insert_ne by done.
  rewrite lookup_fromkeys. by rewrite decide_False.
Qed.

Lemma init_lookup_known g s v :
  v ∈ keys g ∨ v = s → is_Some ((init g s).1 !! v).
Proof. apply (inv_dom _ _ _ (inv_init g s)). Qed.

Lemma relax_init_known g s u v c :
  u ∈ keys g → u ≠ s → v ∈ keys g ∨ v = s →
  relax (init g s) (u, v, c) = Ok (init g s).
Proof.
  intros Hu Hne Hv. pose proof (init_lookup_key g s u Hu Hne) as Hdu.
  destruct (init_lookup_known g s v Hv) as [dv Hdv].
  unfold relax, getitem. simpl in *. by rewrite Hdu, Hdv.
Qed.

Lemma check_init_known g s u v c :
  u ∈ keys g → u ≠ s → v ∈ keys g ∨ v = s →
  check (init g s).1 (u, v, c) = Ok (init g s).1.
Proof.
  intros Hu Hne Hv. pose proof (init_lookup_key g s u Hu Hne) as Hdu.
  destruct (init_lookup_known g s v Hv) as [dv Hdv].
  unfold check, getitem. simpl in *. by rewrite Hdu, Hdv.
Qed.

Lemma check_init_unknown g s u v c :
  u ∈ keys g → u ≠ s → v ∉ keys g → v ≠ s →
  check (init g s).1 (u, v, c) = Raise KeyError.
Proof.
  intros Hu Hne Hv Hvs. pose proof (init_lookup_key g s u Hu Hne) as Hdu.
  pose proof (init_lookup_unknown g s v Hv Hvs) as Hdv.
  unfold check, getitem. simpl in *. by rewrite Hdu, Hdv.
Qed.

Lemma pass_init_known g s l :
  s ∉ keys g → (∀ e, e ∈ l → e ∈ edges g) →
  (∀ u v c, (u, v, c) ∈ l → v ∈ keys g ∨ v = s) →
  for_each relax l (init g s) = Ok (init g s).
Proof.
  intros Hs. induction l as [|[[u v] c] l IH]; intros Hl Hk; [done|].
  assert (u ∈ keys g) as Hu.
  { apply edges_start_key with v c, Hl. by left. }
  cbn [for_each].
  rewrite relax_init_known; [|done|congruence|apply (Hk u v c); by left].
  simpl. apply IH.
  - intros e He. apply Hl. by right.
  - intros u' v' c' He. apply (Hk u' v' c'). by right.
Qed.

Lemma scan_init_known g s l :
  s ∉ keys g → (∀ e, e ∈ l → e ∈ edges g) →
  (∀ u v c, (u, v, c) ∈ l → v ∈ keys g ∨ v = s) →
  for_each check l (init g s).1 = Ok (init g s).1.
Proof.
  intros Hs. induction l as [|[[u v] c] l IH]; intros Hl Hk; [done|].
  assert (u ∈ keys g) as Hu.
  { apply edges_start_key with v c, Hl. by left. }
  cbn [for_each].
  rewrite check_init_known; [|done|congruence|apply (Hk u v c); by left].
  simpl. apply IH.
  - intros e He. apply Hl. by right.
  - intros u' v' c' He. apply (Hk u' v' c'). by right.
Qed.

Lemma scan_init_unknown g s l :
  s ∉ keys g → (∀ e, e ∈ l → e ∈ edges g) →
  (∃ u v c, (u, v, c) ∈ l ∧ (v ∉ keys g) ∧ v ≠ s) →
  for_each check l (init g s).1 = Raise KeyError.
Proof.
  intros Hs. induction l as [|[[u v] c] l IH]; intros Hl Hbad.
  { destruct Hbad as (? & ? & ? & Hin & _). by apply elem_of_nil in Hin. }
  assert (u ∈ keys g) as Hu.
  { apply edges_start_key with v c, Hl. by left. }
  cbn [for_each].
  destruct (decide (v ∈ keys g ∨ v = s)) as [Hv|Hv].
  - rewrite check_init_known; [|done|congruence|done]. simpl. apply IH.
    + intros e He. apply Hl. by right.
    + destruct Hbad as (u' & v' & c' & Hin & Hv' & Hne).
      apply elem_of_cons in Hin as [[= -> -> ->] | Hin]; [tauto|].
      by exists u', v', c'.
  - rewrite check_init_unknown; [done|done|congruence|tauto|tauto].
Qed.

(** A pass over edges of which one goes to an unknown vertex fails on a
    subscript. *)
Lemma pass_unknown g s l st :
  inv g s st → (∀ e, e ∈ l → e ∈ edges g) →
  (∃ u v c, (u, v, c) ∈ l ∧ (v ∉ keys g) ∧ v ≠ s) →
  for_each relax l st = Raise KeyError.
Proof.
  revert st. induction l as [|[[u v] c] l IH]; intros st I Hl Hbad.
  { destruct Hbad as (? & ? & ? & Hin & _). by apply elem_of_nil in Hin. }
  simpl. destruct (relax st (u, v, c)) as [st1|e] eqn:H1; simpl.
  - assert (inv g s st1) as I1.
    { apply inv_relax with st (u, v, c); [|done..]. apply Hl. by left. }
    apply IH; [done| |].
    + intros e He. apply Hl. by right.
    + destruct Hbad as (u' & v' & c' & Hin & Hv' & Hne).
      apply elem_of_cons in Hin as [[= -> -> ->] | Hin]; [|by exists u', v', c'].
      destruct st as [ds ps].
      apply relax_Ok in H1 as (du & dv & _ & Hdv & _).
      destruct (proj1 (inv_dom _ _ _ I v)); [by eexists|done..].
  - destruct st as [ds ps]. by apply relax_Raise in H1 as [-> _].
Qed.

Lemma repeat_n_fixed {S} (body : S → outcome S) n s :
  body s = Ok s → repeat_n n body s = Ok s.
Proof. intros H. induction n as [|n IH]; [done|]. simpl. by rewrite H. Qed.







Lemma reconstruct_path_root ps t fuel :
  ps !! t = Some None → reconstruct_path (S fuel) ps t = Some (Ok [t]).
Proof.
  intros Ht. unfold reconstruct_path. simpl. unfold getitem. rewrite Ht.
  by destruct fuel.
Qed.

(** C7: for the predecessors of a run that returned and a target at
    distance [inf], [reconstruct_path] finishes (after one iteration) and
    returns the path [[target]], not an exception. *)
Theorem unreached_target_path g s ds ps t fuel :
  bellman_ford_algorithm g s = Ok (ds, ps) → ds !! t = Some Inf →
  reconstruct_path (S fuel) ps t = Some (Ok [t]).
Proof.
  intros Hrun Ht. apply reconstruct_path_root.
  apply (inf_no_pred g s ds ps t); [|done]. by apply bellman_ford_inv.
Qed.

Lemma unreached_target_path_disconnected :
  reconstruct_path 1 (<["A" := None]> (<["B" := Some "A"]> (<["C" := None]> ∅)))
    "C" = Some (Ok ["C"]).
Proof.
  apply (unreached_target_path disconnected "A"
           (<["A" := Fin 0]> (<["B" := Fin 1]> (<["C" := Inf]> ∅)))).
  - by vm_compute.
  - by vm_compute.
Defined.







(** ** The scenarios of the specification *)

Example single_vertex_run :
  bellman_ford_algorithm single_vertex "A"
  = Ok (<["A" := Fin 0]> ∅, <["A" := None]> ∅)
  ∧ reconstruct_path 1 (<["A" := None]> ∅) "A" = Some (Ok ["A"]).
Proof. split; by vm_compute. Qed.

Example negative_loop_run :
  bellman_ford_algorithm negative_loop "A" = Raise ValueError.
Proof. by vm_compute. Qed.

Example negative_edge_run :
  bellman_ford_algorithm negative_edge "A"
  = Ok (<["A" := Fin 0]> (<["B" := Fin (-1)]> ∅),
        <["A" := None]> (<["B" := Some "A"]> ∅)).
Proof. by vm_compute. Qed.

Example disconnected_run :
  bellman_ford_algorithm disconnected "A"
  = Ok (<["A" := Fin 0]> (<["B" := Fin 1]> (<["C" := Inf]> ∅)),
        <["A" := None]> (<["B" := Some "A"]> (<["C" := None]> ∅))).
Proof. by vm_compute. Qed.

Example sample_path_E :
  reconstruct_path 3 sample_predecessors "E" = Some (Ok ["A"; "C"; "E"]).
Proof. by vm_compute. Qed.

(** * Further properties of the code *)

(** ** bellman_ford_algorithm without precondition *)

(** All the vertices of a walk but the last start an edge, so they are
    keys of the graph. *)
Lemma walk_inner_keys g s vs v w :
  walk (edges g) s vs v w → ∀ a, a ∈ tail vs → a ∈ keys g.
Proof.
  induction 1 as [|vs u v w c Hw IH Hin]; intros a Ha; simpl in Ha.
  - by apply elem_of_nil in Ha.
  - destruct (walk_end _ _ _ _ _ Hw) as [vs' ->]. simpl in IH.
    apply elem_of_cons in Ha as [->|Ha]; [|by apply IH].
    by apply edges_start_key in Hin.
Qed.

Lemma simple_walk_length_known g s vs v w :
  walk (edges g) s vs v w → NoDup vs → v ∈ keys g ∨ v = s →
  (length vs ≤ S (passes g))%nat.
Proof.
  intros Hw Hnd [Hv| ->].
  - assert (length vs ≤ length (keys g))%nat as Hlen.
    { apply submseteq_length, NoDup_submseteq; [done|]. intros a Ha.
      pose proof (walk_inner_keys _ _ _ _ _ Hw a) as Hin.
      destruct (walk_end _ _ _ _ _ Hw) as [vs' ->]. simpl in Hin.
      apply elem_of_cons in Ha as [->|Ha]; [done|by apply Hin]. }
    unfold keys in Hlen. rewrite length_fmap in Hlen. unfold passes. lia.
  - inversion Hw as [|vs0 a b w0 c Hw0 Hin]; subst; [simpl; lia|].
    apply NoDup_cons in Hnd as [Hs _]. destruct Hs.
    by apply walk_start_in in Hw0.
Qed.

Lemma relaxable_negative_cycle_any g s st e :
  repeat_n (passes g) (for_each relax (edges g)) (init g s) = Ok st →
  e ∈ edges g → relaxable st.1 e → negative_cycle (edges g) s.
Proof.
  intros Hrun Hin (du & dv & Hu & Hv & Hlt).
  destruct e as [[u v] c]. simpl in *.
  pose proof (inv_passes g s _ _ _ (inv_init g s) Hrun) as I.
  pose proof (bounded_passes _ _ _ _ _ _ (bounded_init g s) Hrun) as Hb.
  apply dist_ltb_true in Hlt as (x & Hx & Hdv).
  destruct du as [x'|]; [|done]. injection Hx as <-.
  destruct (inv_sound _ _ _ I u x' Hu) as [vs Hw].
  assert (walk (edges g) s (v :: vs) v (x' + c)) as Hw'
    by by apply walk_snoc with u.
  destruct (walk_simplify _ _ _ _ _ Hw')
    as [(a & cs & c' & H) | (vs' & w' & Hs & Hnd & Hle)].
  - by exists a, cs, c'.
  - destruct (Hb vs' v w' Hs) as (d & Hd & Hle').
    { apply simple_walk_length_known with s v w'; [done..|].
      apply (inv_dom _ _ _ I). by eexists. }
    rewrite Hv in Hd. injection Hd as <-.
    destruct Hdv as [->|(y & -> & Hy)]; simpl in Hle'; [done|lia].
Qed.

Lemma pass_Raise es st e : for_each relax es st = Raise e → e = KeyError.
Proof.
  revert st. induction es as [|[[u v] c] es IH]; intros [ds ps]; [done|].
  cbn [for_each].
  destruct (relax (ds, ps) (u, v, c)) as [st1|e1] eqn:H1; simpl.
  - apply IH.
  - intros [= <-]. by apply relax_Raise in H1 as [-> _].
Qed.

Lemma passes_Raise es n st e :
  repeat_n n (for_each relax es) st = Raise e → e = KeyError.
Proof.
  revert st. induction n as [|n IH]; intros st; [done|]. simpl.
  destruct (for_each relax es st) as [st1|e1] eqn:H1; simpl; [apply IH|].
  intros [= <-]. by apply pass_Raise in H1.
Qed.

Lemma run_ValueError_cycle g s :
  bellman_ford_algorithm g s = Raise ValueError →
  negative_cycle (edges g) s.
Proof.
  intros Hv.
  destruct (repeat_n (passes g) (for_each relax (edges g)) (init g s))
    as [st|e] eqn:Hrun.
  - destruct (run_ValueError g s st Hrun Hv) as (e & Hin & Hr).
    by apply relaxable_negative_cycle_any with st e.
  - unfold bellman_ford_algorithm in Hv. rewrite Hrun in Hv. simpl in Hv.
    apply passes_Raise in Hrun. congruence.
Qed.



Lemma passes_shortest_any g s st v d :
  ¬ negative_cycle (edges g) s →
  repeat_n (passes g) (for_each relax (edges g)) (init g s) = Ok st →
  st.1 !! v = Some d → shortest (edges g) s v d.
Proof.
  intros Hnc Hrun Hd.
  pose proof (inv_passes g s _ _ _ (inv_init g s) Hrun) as I.
  pose proof (bounded_passes _ _ _ _ _ _ (bounded_init g s) Hrun) as Hb.
  assert (∀ vs w, walk (edges g) s vs v w → dist_le d (Fin w)) as Hle.
  { intros vs w Hw.
    destruct (walk_simple _ _ _ _ _ Hnc Hw) as (vs' & w' & Hw' & Hnd & Hle).
    destruct (Hb vs' v w' Hw') as (d' & Hd' & Hle').
    { apply simple_walk_length_known with s v w'; [done..|].
      apply (inv_dom _ _ _ I). by eexists. }
    rewrite Hd in Hd'. injection Hd' as <-.
    by apply dist_le_trans with (Fin w'). }
  destruct d as [x|]; simpl.
  - split; [by apply (inv_sound _ _ _ I)|]. intros vs w Hw. apply (Hle vs w Hw).
  - intros (vs & w & Hw). apply (Hle vs w Hw).
Qed.

Lemma run_shortest g s ds ps v d :
  bellman_ford_algorithm g s = Ok (ds, ps) → ds !! v = Some d →
  shortest (edges g) s v d.
Proof.
  intros Hrun Hd. pose proof (run_no_negative_cycle g s _ Hrun) as Hnc.
  apply bellman_ford_Ok in Hrun as [Hrun _].
  by apply (passes_shortest_any g s (ds, ps) v d).
Qed.



Lemma passes_no_root g s n st :
  repeat_n n (for_each relax (edges g)) (init g s) = Ok st →
  ∀ v, st.2 !! v = Some None → v ∈ keys g.
Proof.
  apply (repeat_n_inv (λ st, ∀ v, st.2 !! v = Some None → v ∈ keys g)).
  - intros st1 st2.
    apply (for_each_inv (λ st, ∀ v, st.2 !! v = Some None → v ∈ keys g)).
    intros [ds ps] [[u v] c] st' _ Hp Hrun.
    apply relax_Ok in Hrun
      as (du & dv & Hu & Hv & [(x & -> & Hlt & ->) | (_ & ->)]); [|done].
    simpl in *. intros v'. rewrite lookup_insert. case_decide; [done|apply Hp].
  - intros v. simpl. rewrite lookup_fromkeys. by case_decide.
Qed.

Lemma run_keys g s ds ps :
  bellman_ford_algorithm g s = Ok (ds, ps) →
  (∀ v, is_Some (ds !! v) ↔ v ∈ keys g ∨ v = s)
  ∧ (∀ v, is_Some (ps !! v) ↔ v ∈ keys g).
Proof.
  intros Hrun. pose proof (bellman_ford_inv g s ds ps Hrun) as I.
  apply bellman_ford_Ok in Hrun as [Hrun Hs].
  split; [apply (inv_dom _ _ _ I)|].
  intros v. split; [|apply (inv_dom_pred _ _ _ I)].
  intros [[u|] Hp].
  - destruct (inv_dom_pred' _ _ _ I v) as [?| ->]; [by eexists|done|].
    destruct (inv_source_pred _ _ _ I u Hp) as (x & Hx & Hlt). simpl in Hx.
    rewrite (settled_source g s ds ps I Hs) in Hx. injection Hx as <-. lia.
  - by apply (passes_no_root g s _ _ Hrun).
Qed.

(** X3: when the call returns, [distances] has exactly the keys of the
    graph and the source as keys, and [predecessors] exactly the keys of
    the graph. *)
Theorem returned_keys g s ds ps :
  bellman_ford_algorithm g s = Ok (ds, ps) →
  (∀ v, is_Some (ds !! v) ↔ v ∈ keys g ∨ v = s)
  ∧ (∀ v, is_Some (ps !! v) ↔ v ∈ keys g).
Proof. apply run_keys. Qed.

Lemma returned_keys_absent :
  (∀ v, is_Some ((<["B" := Fin 0]> (<["A" := Inf]> ∅) : gmap string dist) !! v)
        ↔ v ∈ keys single_vertex ∨ v = "B")
  ∧ (∀ v, is_Some ((<["A" := None]> ∅ : gmap string (option string)) !! v)
          ↔ v ∈ keys single_vertex).
Proof.
  apply (returned_keys single_vertex "B"). by vm_compute.
Defined.

Lemma run_edges_known g s st :
  bellman_ford_algorithm g s = Ok st →
  (∀ u v c, (u, v, c) ∈ edges g → v ∈ keys g ∨ v = s)
  ∧ (s ∈ keys g → key_complete g s).
Proof.
  destruct st as [ds ps]. intros Hrun.
  pose proof (bellman_ford_inv g s ds ps Hrun) as I.
  apply bellman_ford_Ok in Hrun as [_ Hs].
  assert (∀ u v c, (u, v, c) ∈ edges g → v ∈ keys g ∨ v = s) as Hk.
  { intros u v c Hin. destruct (Hs u v c Hin) as (du & dv & _ & Hv & _).
    apply (inv_dom _ _ _ I). by eexists. }
  split; [done|]. intros Hin. split; [done|].
  intros u v c He. by destruct (Hk u v c He) as [?| ->].
Qed.

(** X4: a return certifies the precondition: when the call returns, every
    edge of the graph leads to a key of the graph or to the source; with
    the source a key, the graph is key-complete. *)
Theorem returned_edges_known g s st :
  bellman_ford_algorithm g s = Ok st →
  (∀ u v c, (u, v, c) ∈ edges g → v ∈ keys g ∨ v = s)
  ∧ (s ∈ keys g → key_complete g s).
Proof. apply run_edges_known. Qed.

Lemma returned_edges_known_sample :
  (∀ u v c, (u, v, c) ∈ edges sample_graph → v ∈ keys sample_graph ∨ v = "A")
  ∧ ("A" ∈ keys sample_graph → key_complete sample_graph "A").
Proof.
  apply (returned_edges_known sample_graph "A"
           (sample_distances, sample_predecessors)).
  by vm_compute.
Defined.

Lemma passes_total_known g s n :
  (∀ u v c, (u, v, c) ∈ edges g → v ∈ keys g ∨ v = s) →
  ∃ st, repeat_n n (for_each relax (edges g)) (init g s) = Ok st ∧ inv g s st.
Proof.
  intros Hk. apply repeat_n_total; [|apply inv_init].
  intros st I. apply for_each_total; [|done].
  intros [ds ps] [[u v] c] Hin I'.
  destruct (relax_total ds ps u v c) as [st' Hrun].
  - apply (inv_dom _ _ _ I'). left. by apply edges_start_key in Hin.
  - apply (inv_dom _ _ _ I'). by apply Hk in Hin.
  - exists st'. split; [done|]. by apply inv_relax with (ds, ps) (u, v, c).
Qed.

Lemma run_total_known g s :
  (∀ u v c, (u, v, c) ∈ edges g → v ∈ keys g ∨ v = s) →
  (∃ st, bellman_ford_algorithm g s = Ok st)
  ∨ bellman_ford_algorithm g s = Raise ValueError.
Proof.
  intros Hk.
  destruct (passes_total_known g s (passes g) Hk) as (st & Hrun & I).
  unfold bellman_ford_algorithm. rewrite Hrun. simpl.
  destruct (for_each check (edges g) st.1) as [ds|[]] eqn:Hscan; simpl; eauto.
  exfalso. revert Hscan. apply scan_no_KeyError. intros u v c Hin.
  split; apply (inv_dom _ _ _ I);
    [left; by apply edges_start_key in Hin|by apply Hk in Hin].
Qed.

(** X5: the call fails on a subscript only because of the graph: when it
    raises [KeyError], some edge leads to a vertex that is neither a key
    of the graph nor the source. *)
Theorem key_error_cause g s :
  bellman_ford_algorithm g s = Raise KeyError →
  ∃ u v c, (u, v, c) ∈ edges g ∧ (v ∉ keys g) ∧ v ≠ s.
Proof.
  intros Hrun.
  destruct (decide (Exists (λ e : string * string * Z,
                      (e.1.2 ∉ keys g) ∧ e.1.2 ≠ s) (edges g))) as [Hex|Hall].
  - apply Exists_exists in Hex as ([[u v] c] & Hin & Hv & Hne).
    by exists u, v, c.
  - destruct (run_total_known g s) as [[st Hok]|Hv]; [|congruence..].
    intros u v c Hin.
    destruct (decide (v ∈ keys g)) as [?|Hv]; [by left|].
    destruct (decide (v = s)) as [?|Hne]; [by right|].
    destruct Hall. apply Exists_exists. by exists (u, v, c).
Qed.

Lemma key_error_cause_dangling :
  ∃ u v c, (u, v, c) ∈ edges dangling_edge
           ∧ (v ∉ keys dangling_edge) ∧ v ≠ "A".
Proof. apply (key_error_cause dangling_edge "A"). by vm_compute. Defined.

(** ** The distances do not depend on the order of the graph *)

Lemma walk_edges_subseteq es1 es2 s vs v w :
  (∀ e, e ∈ es1 → e ∈ es2) → walk es1 s vs v w → walk es2 s vs v w.
Proof.
  intros Hsub. induction 1 as [|vs a b w c Hw IH Hin]; [constructor|].
  apply walk_snoc with a; [done|by apply Hsub].
Qed.

Lemma negative_cycle_edges_subseteq es1 es2 s :
  (∀ e, e ∈ es1 → e ∈ es2) → negative_cycle es1 s → negative_cycle es2 s.
Proof.
  intros Hsub (v & vs & w & (vs0 & w0 & Hr) & [Hw Hnd] & Hneg).
  exists v, vs, w. split; [|split; [split|]; [|done..]].
  - exists vs0, w0. by apply walk_edges_subseteq with es1.
  - by apply walk_edges_subseteq with es1.
Qed.

Lemma shortest_edges_equiv es1 es2 s v d :
  (∀ e, e ∈ es1 ↔ e ∈ es2) → shortest es1 s v d → shortest es2 s v d.
Proof.
  intros Heq. destruct d as [x|]; simpl.
  - intros [[vs Hw] Hmin]. split.
    + exists vs. apply walk_edges_subseteq with es1; [apply Heq|done].
    + intros vs' w Hw'. apply (Hmin vs').
      apply walk_edges_subseteq with es2; [apply Heq|done].
  - intros Hn (vs & w & Hw). apply Hn. exists vs, w.
    apply walk_edges_subseteq with es2; [apply Heq|done].
Qed.

Lemma shortest_unique es s v d1 d2 :
  shortest es s v d1 → shortest es s v d2 → d1 = d2.
Proof.
  destruct d1 as [x1|], d2 as [x2|]; simpl.
  - intros [[vs1 H1] M1] [[vs2 H2] M2].
    pose proof (M1 _ _ H2). pose proof (M2 _ _ H1). f_equal. lia.
  - intros [[vs1 H1] _] Hn. destruct Hn. by exists vs1, x1.
  - intros Hn [[vs2 H2] _]. destruct Hn. by exists vs2, x2.
  - done.
Qed.



(** ** reconstruct_path on any predecessors *)

Lemma reconstruct_loop_Ok ps fuel path v r :
  reconstruct_loop fuel ps path (Some v) = Some (Ok r) →
  ∃ l, pred_chain ps v l ∧ r = (rev l ++ path)%list ∧ (length l ≤ fuel)%nat.
Proof.
  revert path v. induction fuel as [|fuel IH]; intros path v; [done|].
  simpl. unfold getitem. destruct (ps !! v) as [[u|]|] eqn:Hv; [| |done].
  - intros (l & Hl & -> & Hlen)%IH. exists (v :: l).
    split; [by apply chain_step with u|]. simpl.
    split; [by rewrite <- app_assoc|lia].
  - destruct fuel; simpl; intros [= <-]; exists [v];
      (split; [by apply chain_root|split; [done|simpl; lia]]).
Qed.

Lemma pred_chain_head ps v l : pred_chain ps v l → ∃ l', l = v :: l'.
Proof. destruct 1; eauto. Qed.

Lemma pred_chain_unique ps v l1 l2 :
  pred_chain ps v l1 → pred_chain ps v l2 → l1 = l2.
Proof.
  intros H1. revert l2. induction H1 as [v Hv|v u l Hv H1 IH]; intros l2 H2;
    destruct H2 as [v Hv'|v u' l' Hv' H2]; try congruence.
  rewrite Hv in Hv'. injection Hv' as <-. f_equal. by apply IH.
Qed.

Lemma pred_chain_suffix ps v l a :
  pred_chain ps v l → a ∈ l →
  ∃ l', pred_chain ps a l' ∧ (length l' ≤ length l)%nat.
Proof.
  induction 1 as [v Hv|v u l Hv Hc IH]; intros Ha.
  - apply list_elem_of_singleton in Ha as ->. exists [v].
    split; [by apply chain_root|done].
  - apply elem_of_cons in Ha as [->|Ha].
    + exists (v :: l). split; [by apply chain_step with u|done].
    + destruct (IH Ha) as (l' & Hl' & Hlen). exists l'.
      split; [done|simpl; lia].
Qed.

Lemma pred_chain_NoDup ps v l : pred_chain ps v l → NoDup l.
Proof.
  induction 1 as [v Hv|v u l Hv Hc IH]; [apply NoDup_singleton|].
  apply NoDup_cons. split; [|done]. intros Hin.
  destruct (pred_chain_suffix _ _ _ _ Hc Hin) as (l' & Hl' & Hlen).
  pose proof (chain_step ps v u l Hv Hc) as Hv'.
  pose proof (pred_chain_unique _ _ _ _ Hl' Hv') as ->. simpl in Hlen. lia.
Qed.

Lemma pred_chain_links ps v l :
  pred_chain ps v l →
  ∃ r, last l = Some r ∧ ps !! r = Some None ∧ rtc (link ps) v r.
Proof.
  induction 1 as [v Hv|v u l Hv Hc (r & Hlast & Hr & Hrtc)].
  - exists v. split; [done|]. split; [done|apply rtc_refl].
  - exists r. destruct (pred_chain_head _ _ _ Hc) as [l' ->].
    split; [done|]. split; [done|]. by apply rtc_l with u.
Qed.

Lemma rev_reverse {A} (l : list A) : rev l = reverse l.
Proof. unfold reverse. by rewrite rev_alt. Qed.

(** X7: what [reconstruct_path] returns, for any predecessors: a result
    [path] is returned (with enough fuel) exactly when following the
    links from the target ends at a vertex mapped to [None], [path] being
    the vertices visited, in reverse order of the visit. *)
Theorem reconstruct_path_returns ps t path :
  (∃ fuel, reconstruct_path fuel ps t = Some (Ok path))
  ↔ pred_chain ps t (rev path).
Proof.
  split.
  - intros [fuel Hrun]. unfold reconstruct_path in Hrun.
    apply reconstruct_loop_Ok in Hrun as (l & Hl & -> & _).
    by rewrite app_nil_r, rev_involutive.
  - intros Hc. exists (length (rev path)).
    rewrite (reconstruct_path_chain ps t (rev path)) by done.
    by rewrite rev_involutive.
Qed.



Lemma reconstruct_loop_Raise ps fuel path v e :
  reconstruct_loop fuel ps path (Some v) = Some (Raise e) →
  e = KeyError ∧ ∃ u, rtc (link ps) v u ∧ ps !! u = None.
Proof.
  revert path v. induction fuel as [|fuel IH]; intros path v; [done|].
  simpl. unfold getitem. destruct (ps !! v) as [[u|]|] eqn:Hv.
  - intros (-> & u' & Hrtc & Hu')%IH. split; [done|]. exists u'.
    split; [by apply rtc_l with u|done].
  - by destruct fuel.
  - intros [= <-]. split; [done|]. exists v. split; [apply rtc_refl|done].
Qed.

(** X9: the only exception of [reconstruct_path] is [KeyError], and it is
    raised only when the links lead from the target to a vertex that is
    not a key of the predecessors. *)
Theorem reconstruct_path_raises ps t fuel e :
  reconstruct_path fuel ps t = Some (Raise e) →
  e = KeyError ∧ ∃ u, rtc (link ps) t u ∧ ps !! u = None.
Proof. apply reconstruct_loop_Raise. Qed.

Lemma reconstruct_path_raises_broken :
  KeyError = KeyError
  ∧ ∃ u, rtc (link broken_predecessors) "A" u ∧ broken_predecessors !! u = None.
Proof.
  apply (reconstruct_path_raises broken_predecessors "A" 2). by vm_compute.
Defined.

(** X10: [reconstruct_path] has no guard against predecessors that run in
    a circle: from a target inside a set of vertices each of which has a
    predecessor in the set, the loop never ends, whatever the fuel. *)
Theorem reconstruct_path_circle (P : string → Prop) ps t :
  (∀ v, P v → ∃ u, ps !! v = Some (Some u) ∧ P u) → P t →
  ∀ fuel, reconstruct_path fuel ps t = None.
Proof.
  intros Hclosed Ht fuel. unfold reconstruct_path. generalize (@nil string).
  revert t Ht. induction fuel as [|fuel IH]; intros t Ht path; [done|].
  destruct (Hclosed t Ht) as (u & Hu & HP). simpl. unfold getitem.
  rewrite Hu. by apply IH.
Qed.

Lemma reconstruct_path_circle_sample :
  reconstruct_path 7 circular_predecessors "A" = None.
Proof.
  apply (reconstruct_path_circle (λ v, v = "A" ∨ v = "B")); [|by left].
  intros v [-> | ->]; [exists "B"|exists "A"]; (split; [by vm_compute|]); auto.
Defined.

(** ** reconstruct_path on the predecessors of a run *)

Lemma run_chain g s ds ps v :
  bellman_ford_algorithm g s = Ok (ds, ps) → v ∈ keys g →
  ∃ l, pred_chain ps v l ∧ (length l ≤ length g)%nat.
Proof.
  intros Hrun Hv. pose proof (run_no_negative_cycle g s _ Hrun) as Hnc.
  destruct (run_keys g s ds ps Hrun) as [_ Hdom].
  apply bellman_ford_Ok in Hrun as [Hrun _].
  destruct (chains_passes g s _ (ds, ps) Hnc Hrun v) as [l Hl];
    [by apply Hdom|].
  exists l. split; [done|].
  replace (length g) with (length (keys g))
    by (unfold keys; apply length_fmap).
  apply submseteq_length, NoDup_submseteq; [by apply pred_chain_NoDup with ps v|].
  intros a Ha. destruct (pred_chain_suffix _ _ _ _ Hl Ha) as (l' & Hl' & _).
  apply Hdom. destruct Hl'; by eexists.
Qed.

Lemma run_paths g s ds ps v d :
  bellman_ford_algorithm g s = Ok (ds, ps) → v ∈ keys g → ds !! v = Some d →
  ∃ path,
    reconstruct_path (length g) ps v = Some (Ok path)
    ∧ match d with
      | Fin x => walk (edges g) s (rev path) v x
      | Inf => path = [v]
      end.
Proof.
  intros Hrun Hv Hd. destruct (run_chain g s ds ps v Hrun Hv) as (l & Hl & Hlen).
  exists (rev l). split; [by apply reconstruct_path_chain|].
  pose proof (bellman_ford_inv g s ds ps Hrun) as I.
  destruct d as [x|].
  - rewrite rev_involutive.
    destruct (chain_walk _ _ _ _ _ _ _ I Hl Hd) as (w & x0 & Hw & Hx0 & Hle).
    pose proof (run_shortest g s ds ps v (Fin x) Hrun Hd) as [_ Hmin].
    apply bellman_ford_Ok in Hrun as [_ Hs].
    rewrite (settled_source g s ds ps I Hs) in Hx0. injection Hx0 as <-.
    pose proof (Hmin l w Hw). by replace x with w by lia.
  - pose proof (inf_no_pred g s ds ps v I Hd) as Hp.
    by rewrite (pred_chain_unique _ _ _ _ Hl (chain_root ps v Hp)).
Qed.



(** ** display_results *)

Lemma io_for_each_print {X} (f : X → string) l :
  io_for_each (λ x, print (f x)) l = (f <$> l, Some (Ok ())).
Proof.
  induction l as [|x l IH]; [done|]. simpl.
  unfold mbind, io_bind. simpl. by rewrite IH.
Qed.

Lemma io_for_each_lines {X Y} (Q : X → string → Prop) (f : X → Y)
    (body : Y → io unit) l :
  (∀ x, x ∈ l → ∃ line, body (f x) = ([line], Some (Ok ())) ∧ Q x line) →
  ∃ lines, io_for_each body (f <$> l) = (lines, Some (Ok ()))
           ∧ Forall2 Q l lines.
Proof.
  induction l as [|x l IH]; intros Hbody.
  - exists []. by split; [|constructor].
  - destruct (Hbody x) as (line & Hx & HQ); [by left|].
    destruct IH as (lines & Hl & HF).
    { intros y Hy. apply Hbody. by right. }
    exists (line :: lines). split; [|by constructor].
    rewrite fmap_cons. simpl. unfold mbind, io_bind. rewrite Hx. simpl.
    by rewrite Hl.
Qed.

Lemma io_for_each_raises {X} (body : X → io unit) l e :
  (∀ x, x ∈ l → (body x).2 = Some (Ok ()) ∨ (body x).2 = Some (Raise e)) →
  (∃ x, x ∈ l ∧ (body x).2 = Some (Raise e)) →
  (io_for_each body l).2 = Some (Raise e).
Proof.
  induction l as [|x l IH]; intros Hall (y & Hy & Hraise).
  - by apply elem_of_nil in Hy.
  - simpl. unfold mbind, io_bind.
    destruct (Hall x) as [Hx|Hx]; [by left| |]; rewrite Hx; simpl; [|done].
    apply IH.
    + intros z Hz. apply Hall. by right.
    + apply elem_of_cons in Hy as [->|Hy]; [congruence|by exists y].
Qed.

Lemma io_for_each_exception {X} (body : X → io unit) l e :
  (io_for_each body l).2 = Some (Raise e) →
  ∃ x, x ∈ l ∧ (body x).2 = Some (Raise e).
Proof.
  induction l as [|x l IH]; [done|]. simpl. unfold mbind, io_bind.
  destruct (body x).2 as [[[]|e1]|] eqn:Hx; simpl; [| |done].
  - intros (y & Hy & He)%IH. exists y. split; [by right|done].
  - intros [= ->]. exists x. split; [by left|done].
Qed.

Lemma display_results_loops fuel ds ps s :
  display_results fuel ds ps s
  = (distances_heading s :: ((distance_line <$> ds) ++ paths_heading
       :: (io_for_each (display_path fuel ds ps) ds.*1).1)%list,
     (io_for_each (display_path fuel ds ps) ds.*1).2).
Proof.
  unfold display_results. rewrite io_for_each_print.
  unfold mbind, io_bind, print. simpl.
  by destruct (io_for_each (display_path fuel ds ps) ds.*1).2 as [[[]|e]|].
Qed.

Lemma items_get_entry (its : list (string * dist)) (ds : gmap string dist) k :
  (∀ k d, (k, d) ∈ its → ds !! k = Some d) → k ∈ its.*1 →
  ∃ d, items_get its k = Ok d ∧ ds !! k = Some d.
Proof.
  induction its as [|[k' d'] its IH]; intros Hview Hk.
  - by apply elem_of_nil in Hk.
  - simpl. case_decide as Hkk.
    + subst k'. exists d'. split; [done|]. apply Hview. by left.
    + rewrite fmap_cons in Hk. apply elem_of_cons in Hk as [?|Hk]; [done|].
      apply IH; [|done]. intros k0 d0 H0. apply Hview. by right.
Qed.

Lemma display_path_no_path fuel its ps v :
  items_get its v = Ok Inf →
  display_path fuel its ps v
  = (["Path to " +:+ v +:+ ": No path"], Some (Ok ())).
Proof. intros H. unfold display_path, mbind, io_bind, silent. by rewrite H. Qed.

Lemma display_path_found fuel its ps v x path :
  items_get its v = Ok (Fin x) →
  reconstruct_path fuel ps v = Some (Ok path) →
  display_path fuel its ps v
  = (["Path to " +:+ v +:+ ": " +:+ join " -> " path], Some (Ok ())).
Proof.
  intros H Hp. unfold display_path, mbind, io_bind, silent. simpl.
  rewrite H. simpl. by rewrite Hp.
Qed.

Lemma display_path_raise fuel its ps v x e :
  items_get its v = Ok (Fin x) →
  reconstruct_path fuel ps v = Some (Raise e) →
  display_path fuel its ps v = ([], Some (Raise e)).
Proof.
  intros H Hp. unfold display_path, mbind, io_bind, silent. simpl.
  rewrite H. simpl. by rewrite Hp.
Qed.

Lemma display_path_exception fuel its ps v e :
  (display_path fuel its ps v).2 = Some (Raise e) → e = KeyError.
Proof.
  unfold display_path, mbind, io_bind, silent. simpl.
  assert (∀ e', items_get its v = Raise e' → e' = KeyError) as Hget.
  { induction its as [|[k' d'] its IH]; simpl; [congruence|].
    by case_decide. }
  destruct (items_get its v) as [d|e'] eqn:Hd; simpl.
  - destruct (dist_ltb d Inf); simpl; [|done].
    destruct (reconstruct_path fuel ps v) as [[path|e']|] eqn:Hp; simpl;
      [done| |done].
    intros [= ->]. by apply reconstruct_loop_Raise in Hp as [-> _].
  - intros [= ->]. by apply Hget.
Qed.

Lemma run_report g s ds ps its :
  bellman_ford_algorithm g s = Ok (ds, ps) → s ∈ keys g →
  (∀ k d, (k, d) ∈ its → ds !! k = Some d) →
  ∃ path_lines,
    display_results (length g) its ps s
    = (distances_heading s
         :: ((distance_line <$> its) ++ paths_heading :: path_lines)%list,
       Some (Ok ()))
    ∧ Forall2 (shortest_path_line (edges g) s) its path_lines.
Proof.
  intros Hrun Hs Hview. rewrite display_results_loops.
  destruct (io_for_each_lines (shortest_path_line (edges g) s) fst
              (display_path (length g) its ps) its) as (lines & Hl & HF).
  - intros [v d] Hin. simpl.
    destruct (items_get_entry its ds v Hview) as (d' & Hget & Hd').
    { apply list_elem_of_fmap. by exists (v, d). }
    rewrite (Hview v d Hin) in Hd'. injection Hd' as <-.
    assert (v ∈ keys g) as Hv.
    { destruct (run_keys g s ds ps Hrun) as [Hdom _].
      destruct (proj1 (Hdom v)) as [?| ->]; [|done..].
      rewrite (Hview v d Hin). by eexists. }
    destruct (run_paths g s ds ps v d Hrun Hv (Hview v d Hin))
      as (path & Hp & Hw).
    destruct d as [x|].
    + eexists. split; [by apply display_path_found with x|].
      unfold shortest_path_line. simpl. by exists path.
    + eexists. split; [by apply display_path_no_path|done].
  - exists lines. rewrite Hl. done.
Qed.



Lemma walk_from_unknown g s vs v w :
  s ∉ keys g → walk (edges g) s vs v w → v = s.
Proof.
  intros Hs Hw. destruct Hw as [|vs u v w c Hw Hin]; [done|].
  destruct Hs. apply (walk_inner_keys g s (v :: vs) v (w + c)).
  - by apply walk_snoc with u.
  - simpl. by apply walk_start_in in Hw.
Qed.

Lemma run_absent_source_raises g s ds ps its fuel :
  bellman_ford_algorithm g s = Ok (ds, ps) → s ∉ keys g →
  (∀ k d, (k, d) ∈ its → ds !! k = Some d) → s ∈ its.*1 →
  (display_results (S fuel) its ps s).2 = Some (Raise KeyError).
Proof.
  intros Hrun Hs Hview Hin. rewrite display_results_loops. simpl.
  destruct (run_keys g s ds ps Hrun) as [_ Hdom].
  assert (ps !! s = None) as Hps.
  { destruct (ps !! s) as [o|] eqn:Hp; [|done]. destruct Hs. apply Hdom.
    by eexists. }
  assert (∀ v, v ∈ its.*1 →
            (items_get its v = Ok Inf)
            ∨ (v = s ∧ ∃ x, items_get its v = Ok (Fin x))) as Hcases.
  { intros v Hv.
    destruct (items_get_entry its ds v Hview Hv) as ([x|] & Hget & Hd);
      [right|by left].
    split; [|by exists x].
    destruct (run_shortest g s ds ps v (Fin x) Hrun Hd) as [[vs Hw] _].
    by apply walk_from_unknown in Hw. }
  assert (reconstruct_path (S fuel) ps s = Some (Raise KeyError)) as Hrec.
  { unfold reconstruct_path. simpl. unfold getitem. by rewrite Hps. }
  apply io_for_each_raises.
  - intros v Hv. destruct (Hcases v Hv) as [Hget|(-> & x & Hget)].
    + left. by rewrite display_path_no_path.
    + right. by rewrite (display_path_raise _ _ _ _ x KeyError).
  - exists s. split; [done|].
    destruct (Hcases s Hin) as [Hget|(_ & x & Hget)].
    + destruct (items_get_entry its ds s Hview Hin) as (d & Hget' & Hd).
      pose proof (bellman_ford_inv g s ds ps Hrun) as I.
      destruct (inv_source _ _ _ I) as (x0 & Hx0 & _). simpl in Hx0.
      congruence.
    + by rewrite (display_path_raise _ _ _ _ x KeyError).
Qed.

(** X13: [display_results] on what a run returned for a source that is
    not a key of the graph: the source is among the distances, at 0, but
    not among the predecessors, so the report stops with a [KeyError] at
    the path of the source (in whatever order [distances] is iterated). *)
Theorem display_results_absent_source g s ds ps its fuel :
  bellman_ford_algorithm g s = Ok (ds, ps) → s ∉ keys g →
  (∀ k d, (k, d) ∈ its → ds !! k = Some d) → s ∈ its.*1 →
  (display_results (S fuel) its ps s).2 = Some (Raise KeyError).
Proof. apply run_absent_source_raises. Qed.

Lemma display_results_absent_source_single :
  (display_results 1 [("A", Inf); ("B", Fin 0)] (<["A" := None]> ∅) "B").2
  = Some (Raise KeyError).
Proof.
  apply (display_results_absent_source single_vertex "B"
           (<["B" := Fin 0]> (<["A" := Inf]> ∅))).
  - by vm_compute.
  - apply (bool_decide_unpack _). by vm_compute.
  - intros k d H.
    repeat (apply elem_of_cons in H as [[= -> ->] | H]); try by vm_compute.
    by apply elem_of_nil in H.
  - apply (bool_decide_unpack _). by vm_compute.
Defined.

Lemma display_results_exception fuel its ps s e :
  (display_results fuel its ps s).2 = Some (Raise e) → e = KeyError.
Proof.
  rewrite display_results_loops. simpl.
  intros (v & _ & Hv)%io_for_each_exception.
  by apply display_path_exception in Hv.
Qed.



(** ** The script *)

Lemma dict_items_entry order (ds : gmap string dist) k d :
  (k, d) ∈ dict_items order ds → ds !! k = Some d.
Proof.
  unfold dict_items. rewrite list_elem_of_omap.
  intros (k' & _ & Hk). destruct (ds !! k') as [d'|] eqn:Hd; [|done].
  simpl in Hk. by injection Hk as <- <-.
Qed.

Lemma dict_items_keys order (ds : gmap string dist) :
  (∀ k, k ∈ order → is_Some (ds !! k)) → (dict_items order ds).*1 = order.
Proof.
  unfold dict_items. induction order as [|k order IH]; intros Hall; [done|].
  simpl. destruct (Hall k) as [d Hd]; [by left|]. rewrite Hd. simpl.
  f_equal. apply IH. intros k' Hk'. apply Hall. by right.
Qed.

Lemma io_bind_silent {A B} (a : A) (k : A → io B) :
  (silent (Some (Ok a)) ≫= k) = k a.
Proof.
  unfold mbind, io_bind, silent. cbn [fst snd app]. by destruct (k a).
Qed.

Lemma script_Ok fuel g s ds ps :
  bellman_ford_algorithm g s = Ok (ds, ps) →
  (display_results fuel (dict_items (returned_order g s) ds) ps s).2
    ≠ Some (Raise ValueError) →
  script fuel g s
  = display_results fuel (dict_items (returned_order g s) ds) ps s.
Proof.
  intros Hrun Hne. unfold script. rewrite Hrun, io_bind_silent. cbn [fst snd].
  destruct (display_results fuel (dict_items (returned_order g s) ds) ps s)
    as [out [[[]|[]]|]]; simpl in *; done.
Qed.

Lemma script_returned fuel g s ds ps :
  bellman_ford_algorithm g s = Ok (ds, ps) →
  script fuel g s
  = display_results fuel (dict_items (returned_order g s) ds) ps s.
Proof.
  intros Hrun. apply script_Ok; [done|]. intros He.
  by apply display_results_exception in He.
Qed.

Lemma script_ValueError fuel g s :
  bellman_ford_algorithm g s = Raise ValueError →
  script fuel g s = ([negative_cycle_message], Some (Ok ())).
Proof. intros Hrun. unfold script. by rewrite Hrun. Qed.

Lemma script_KeyError fuel g s :
  bellman_ford_algorithm g s = Raise KeyError →
  script fuel g s = ([], Some (Raise KeyError)).
Proof. intros Hrun. unfold script. by rewrite Hrun. Qed.

Lemma returned_order_key g s : s ∈ keys g → returned_order g s = keys g.
Proof.
  intros Hs. unfold returned_order. rewrite decide_True by done.
  apply app_nil_r.
Qed.





Lemma run_absent_source g s :
  s ∉ keys g → (∀ u v c, (u, v, c) ∈ edges g → v ∈ keys g ∨ v = s) →
  bellman_ford_algorithm g s = Ok (init g s).
Proof.
  intros Hs Hk. unfold bellman_ford_algorithm.
  rewrite repeat_n_fixed by by apply pass_init_known.
  cbv [mbind outcome_bind]. by rewrite (scan_init_known g s (edges g)).
Qed.





Example main_output :
  main 3
  = ([ "Minimum distances from source 'A':";
       "A: 0"; "B: 3"; "C: 5"; "D: 9"; "E: 11";
       String newline "Shortest paths from source:";
       "Path to A: A"; "Path to B: A -> B"; "Path to C: A -> C";
       "Path to D: A -> B -> D"; "Path to E: A -> C -> E" ],
     Some (Ok ())).
Proof. by vm_compute. Qed.
